(** * Controlled TypeScript system: watcher registry, deleted-file tracker,
      deferred task queue and the host watcher adapter.

    A shallow embedding of [createControlledTypeScriptSystem] and of
    [getWatcher], with the properties of the specification stated over it. *)

From Stdlib Require Import String Ascii List Arith ZArith Lia.
From stdpp Require Import base option list gmap strings sorting.

#[local] Set Warnings "-register-all".

Local Open Scope string_scope.
Local Open Scope list_scope.
Local Open Scope nat_scope.

(** ** [posix.dirname]

    The directory walk of [invokeDirectoryWatchers] is driven by Node's
    [path.posix.dirname].  The function below follows Node's implementation:
    a backwards scan over the indices [length - 1 .. 1] that looks for the
    last separator preceded by a non-separator character.  Paths are
    strings of one-byte characters. *)
Module Posix.

Definition isSlash (c : option ascii) : bool :=
  match c with
  | Some c => Ascii.eqb c "/"%char
  | None => false
  end.

(** The [for (let i = path.length - 1; i >= 1; --i)] loop; the result is
    [end], with [None] standing for [-1]. *)
Fixpoint scan (path : string) (i : nat) (matchedSlash : bool) : option nat :=
  match i with
  | O => None
  | S j =>
      if isSlash (String.get i path) then
        if matchedSlash then scan path j true else Some i
      else scan path j false
  end.

Definition dirname (path : string) : string :=
  if Nat.eqb (String.length path) 0 then "."
  else
    let hasRoot := isSlash (String.get 0 path) in
    match scan path (String.length path - 1) true with
    | None => if hasRoot then "/" else "."
    | Some end_ =>
        if hasRoot && Nat.eqb end_ 1 then "//" else String.substring 0 end_ path
    end.

End Posix.

(** ** Watcher registry, deleted-file tracker and facade *)

(** [ts.FileWatcherEventKind]. *)
Inductive FileWatcherEventKind : Type :=
| Created
| Changed
| Deleted.

(** A callback is a JavaScript function object.  The registry compares
    callbacks by reference ([watcher !== callback]), so a callback is
    represented by its identity. *)
Definition Callback : Type := nat.

(** One call made by the dispatch code: [fileWatcher(path, event)] or
    [directoryWatcher(path)]. *)
Inductive Invocation : Type :=
| FileWatcherCall (callback : Callback) (fileName : string)
    (eventKind : FileWatcherEventKind)
| DirectoryWatcherCall (callback : Callback) (fileName : string).

(** The calls of a directory notification for [path]: directory watcher
    callbacks, each given [path]. *)
Definition directoryCalls (path : string) (calls : list Invocation) : Prop :=
  Forall (fun i => exists cb, i = DirectoryWatcherCall cb path) calls.

(** The content store created by [createPassiveFileSystem] is an external
    collaborator; the facade only relies on this interface. *)
Class PassiveFileSystem : Type := {
  Store : Type;
  normalizePath : string -> string;
  storeWriteFile : string -> string -> Store -> Store;
  storeDeleteFile : string -> Store -> Store;
  storeCreateDir : string -> Store -> Store;
  storeUpdateTimes : string -> Z -> Z -> Store -> Store;
}.

(** The three [Map<string, TCallback[]>] objects a watcher handle may
    refer to. *)
Inductive Registry : Type :=
| FileWatchers
| DirectoryWatchers
| RecursiveDirectoryWatchers.

Section ControlledSystem.

Context `{PFS : PassiveFileSystem}.

(** The closure state of [createControlledTypeScriptSystem]. *)
Record State : Type := mkState {
  fileWatchersMap : gmap string (list Callback);
  directoryWatchersMap : gmap string (list Callback);
  recursiveDirectoryWatchersMap : gmap string (list Callback);
  deletedFiles : gmap string bool;
  fileSystem : Store;
}.

Definition watchersOf (r : Registry) (s : State) : gmap string (list Callback) :=
  match r with
  | FileWatchers => fileWatchersMap s
  | DirectoryWatchers => directoryWatchersMap s
  | RecursiveDirectoryWatchers => recursiveDirectoryWatchersMap s
  end.

Definition withWatchers (r : Registry) (m : gmap string (list Callback))
    (s : State) : State :=
  match r with
  | FileWatchers =>
      mkState m (directoryWatchersMap s) (recursiveDirectoryWatchersMap s)
        (deletedFiles s) (fileSystem s)
  | DirectoryWatchers =>
      mkState (fileWatchersMap s) m (recursiveDirectoryWatchersMap s)
        (deletedFiles s) (fileSystem s)
  | RecursiveDirectoryWatchers =>
      mkState (fileWatchersMap s) (directoryWatchersMap s) m
        (deletedFiles s) (fileSystem s)
  end.

Definition withDeletedFiles (d : gmap string bool) (s : State) : State :=
  mkState (fileWatchersMap s) (directoryWatchersMap s)
    (recursiveDirectoryWatchersMap s) d (fileSystem s).

Definition withFileSystem (fs : Store) (s : State) : State :=
  mkState (fileWatchersMap s) (directoryWatchersMap s)
    (recursiveDirectoryWatchersMap s) (deletedFiles s) fs.

(** The object returned by [createWatcher]: its [close] closure captures
    the map, the path and the callback. *)
Record FileWatcher : Type := mkFileWatcher {
  watchersMap : Registry;
  watchedPath : string;
  watchedCallback : Callback;
}.

(** [createWatcher]: the callback list is never updated in place, a new
    array is stored under the path. *)
Definition createWatcher (r : Registry) (path : string) (callback : Callback)
    (s : State) : State * FileWatcher :=
  let watchers := default [] (watchersOf r s !! path) in
  let nextWatchers := watchers ++ [callback] in
  (withWatchers r (<[path := nextWatchers]> (watchersOf r s)) s,
   mkFileWatcher r path callback).

(** [close] of a handle. *)
Definition close (h : FileWatcher) (s : State) : State :=
  let r := watchersMap h in
  let watchers := default [] (watchersOf r s !! watchedPath h) in
  let nextWatchers :=
    filter (fun watcher => watcher <> watchedCallback h) watchers in
  if 0 <? length nextWatchers then
    withWatchers r (<[watchedPath h := nextWatchers]> (watchersOf r s)) s
  else
    withWatchers r (delete (watchedPath h) (watchersOf r s)) s.

Definition watchFile (path : string) (callback : Callback) (s : State)
    : State * FileWatcher :=
  createWatcher FileWatchers (normalizePath path) callback s.

Definition watchDirectory (path : string) (callback : Callback)
    (recursive : bool) (s : State) : State * FileWatcher :=
  createWatcher
    (if recursive then RecursiveDirectoryWatchers else DirectoryWatchers)
    (normalizePath path) callback s.

(** [deletedFiles.get(path)] used as a condition. *)
Definition markedDeleted (path : string) (s : State) : bool :=
  match deletedFiles s !! path with
  | Some true => true
  | _ => false
  end.

(** The callbacks registered under [path], in registration order
    ([watchersMap.get(path) || []]). *)
Definition registered (r : Registry) (path : string) (s : State)
    : list Callback :=
  default [] (watchersOf r s !! path).

(** *** Dispatch

    What a callback does when it is called is not part of the system: it
    is any function on the closure state (it may register or close
    watchers, or re-enter the facade; what it keeps for itself can be
    carried in the store, whose type is free).  The dispatch code is
    modelled on a [World]: the state together with the list of calls the
    dispatch code itself has made. *)
Variable effect : Invocation -> State -> State.

Record World : Type := mkWorld {
  state : State;
  trace : list Invocation;
}.

Definition call (i : Invocation) (w : World) : World :=
  mkWorld (effect i (state w)) (trace w ++ [i]).

Definition onState (f : State -> State) (w : World) : World :=
  mkWorld (f (state w)) (trace w).

(** [array.forEach(cb => cb(...))] over an array that is not modified
    while it is iterated. *)
Definition forEach (mk : Callback -> Invocation) (callbacks : list Callback)
    (w : World) : World :=
  foldl (fun w cb => call (mk cb) w) w callbacks.

Definition forEachIfPresent (mk : Callback -> Invocation)
    (callbacks : option (list Callback)) (w : World) : World :=
  match callbacks with
  | Some cbs => forEach mk cbs w
  | None => w
  end.

Definition invokeFileWatchers (path : string) (event : FileWatcherEventKind)
    (w : World) : World :=
  let fileWatchers := fileWatchersMap (state w) !! path in
  forEachIfPresent (fun cb => FileWatcherCall cb path event) fileWatchers w.


(** The calls a file notification for [path] makes when it starts from
    [w]: one per registration, in registration order. *)
Definition fileCalls (event : FileWatcherEventKind) (path : string)
    (w : World) : list Invocation :=
  map (fun cb => FileWatcherCall cb path event)
    (registered FileWatchers path (state w)).

(** The [while (directory !== posix.dirname(directory))] loop of
    [invokeDirectoryWatchers].  [fuel] bounds the number of iterations;
    [ancestorFuel] below is always enough (see [ancestorLoop_fuel]). *)
Fixpoint ancestorLoop (fuel : nat) (path directory : string) (w : World)
    : World :=
  match fuel with
  | O => w
  | S fuel' =>
      if decide (directory = Posix.dirname directory) then w
      else
        let recursiveDirectoryWatchers :=
          recursiveDirectoryWatchersMap (state w) !! directory in
        ancestorLoop fuel' path (Posix.dirname directory)
          (forEachIfPresent (fun cb => DirectoryWatcherCall cb path)
             recursiveDirectoryWatchers w)
  end.

Definition ancestorFuel (directory : string) : nat :=
  String.length directory + 2.

(** The successive values of [directory] for which the body of that loop
    runs: the directories whose recursive watchers are looked up. *)
Fixpoint walked (fuel : nat) (directory : string) : list string :=
  match fuel with
  | O => []
  | S fuel' =>
      if decide (directory = Posix.dirname directory) then []
      else directory :: walked fuel' (Posix.dirname directory)
  end.

Definition invokeDirectoryWatchers (path : string) (w : World) : World :=
  let directory := Posix.dirname path in
  let directoryWatchers := directoryWatchersMap (state w) !! directory in
  let w1 :=
    forEachIfPresent (fun cb => DirectoryWatcherCall cb path)
      directoryWatchers w in
  ancestorLoop (ancestorFuel directory) path directory w1.

(** *** Facade operations that notify watchers *)

Definition setDeleted (path : string) (flag : bool) (s : State) : State :=
  withDeletedFiles (<[path := flag]> (deletedFiles s)) s.

Definition invokeFileChanged (path : string) (w : World) : World :=
  let normalizedPath := normalizePath path in
  let w1 := invokeDirectoryWatchers normalizedPath w in
  if markedDeleted normalizedPath (state w1) then
    onState (setDeleted normalizedPath false)
      (invokeFileWatchers normalizedPath Created w1)
  else
    invokeFileWatchers normalizedPath Changed w1.

Definition invokeFileDeleted (path : string) (w : World) : World :=
  let normalizedPath := normalizePath path in
  if negb (markedDeleted normalizedPath (state w)) then
    onState (setDeleted normalizedPath true)
      (invokeFileWatchers normalizedPath Deleted
         (invokeDirectoryWatchers normalizedPath w))
  else w.

Definition onFileSystem (f : Store -> Store) (w : World) : World :=
  onState (fun s => withFileSystem (f (fileSystem s)) s) w.

Definition writeFile (path data : string) (w : World) : World :=
  invokeFileChanged path (onFileSystem (storeWriteFile path data) w).

Definition deleteFile (path : string) (w : World) : World :=
  invokeFileDeleted path (onFileSystem (storeDeleteFile path) w).

Definition createDirectory (path : string) (w : World) : World :=
  invokeDirectoryWatchers (normalizePath path)
    (onFileSystem (storeCreateDir path) w).

Definition setModifiedTime (path : string) (date : Z) (w : World) : World :=
  let w1 := onFileSystem (storeUpdateTimes path date date) w in
  invokeFileWatchers (normalizePath path) Changed
    (invokeDirectoryWatchers (normalizePath path) w1).

End ControlledSystem.

Arguments State {PFS}.
Arguments World {PFS}.

(** Modelled from the spec: the content store ("Content Store", an external
    collaborator created by [createPassiveFileSystem]) is not among the
    sources.  This instance keeps file contents by path and takes paths to be
    normalized already (a case-sensitive system); it serves the concrete
    scenarios below. *)
Definition memoryStore : PassiveFileSystem := {|
  Store := gmap string string;
  normalizePath := fun path => path;
  storeWriteFile := fun path data store => <[path := data]> store;
  storeDeleteFile := fun path store => delete path store;
  storeCreateDir := fun _ store => store;
  storeUpdateTimes := fun _ _ _ store => store;
|}.

(** A freshly created controlled system. *)
Definition initialState `{PFS : PassiveFileSystem} (store : Store) : State :=
  mkState ∅ ∅ ∅ ∅ store.

(** Callbacks that leave the controlled system alone. *)
Definition inert `{PFS : PassiveFileSystem} : Invocation -> State -> State :=
  fun _ s => s.

(** ** Deferred task queue

    [setTimeout], [clearTimeout] and [waitForQueued] run on Node's event
    loop.  The loop is modelled as a machine that executes one action of the
    running function, or starts the next queued immediate, per step:
    immediates run in the order they were queued, and the continuation of an
    awaited promise runs right after the immediate that resolved it. *)
Module Timers.

(** What a function running on the loop may do with the task queue: the
    calls it makes, in order.  A callback is given by the calls its
    execution makes.  Scripts are finite trees: a task that schedules
    itself again without end cannot be written, so what is proved about
    every run is proved of the runs of such scripts. *)
Inductive Action : Type :=
| CallSetTimeout (callback : list Action)
| CallClearTimeout (timeoutId : nat)
| CallWaitForQueued
| Throw.

Definition Callback : Type := list Action.

(** The functions handed to [setImmediate]. *)
Inductive Immediate : Type :=
| TimeoutWrapper (timeoutId : nat) (callback : Callback)
| Resolver (waiter : nat).

(** What has happened so far.  The history is not part of the program; the
    statements below refer to it. *)
Inductive Event : Type :=
| Fired (timeoutId : nat)
| Threw (timeoutId : nat)
| Cleared (timeoutId : nat)
| Drained (waiter : nat).

(** The function being executed: the wrapper of task [owner] (or the main
    script when [owner] is [None]) and what is left of its body. *)
Record Frame : Type := mkFrame {
  owner : option nat;
  rest : list Action;
}.

Record Machine : Type := mkMachine {
  timeoutCallbacks : gset nat;
  immediateQueue : list Immediate;
  running : option Frame;
  nextTimeoutId : nat;
  nextWaiter : nat;
  history : list Event;
}.

Definition isTimeout (timeoutId : nat) (i : Immediate) : bool :=
  match i with
  | TimeoutWrapper t _ => Nat.eqb t timeoutId
  | Resolver _ => false
  end.

Definition queuedTimeouts (q : list Immediate) : list nat :=
  omap (fun i => match i with
                 | TimeoutWrapper t _ => Some t
                 | Resolver _ => None
                 end) q.

(** [setTimeout(callback, ms, ...args)]: the delay is ignored. *)
Definition setTimeout (callback : Callback) (m : Machine) : Machine :=
  let timeoutId := nextTimeoutId m in
  mkMachine
    ({[timeoutId]} ∪ timeoutCallbacks m)
    (immediateQueue m ++ [TimeoutWrapper timeoutId callback])
    (running m) (S timeoutId) (nextWaiter m) (history m).

(** [clearTimeout(timeoutId)]. *)
Definition clearTimeout (timeoutId : nat) (m : Machine) : Machine :=
  mkMachine
    (timeoutCallbacks m ∖ {[timeoutId]})
    (List.filter (fun i => negb (isTimeout timeoutId i)) (immediateQueue m))
    (running m) (nextTimeoutId m) (nextWaiter m)
    (history m ++ [Cleared timeoutId]).

(** One evaluation of the loop condition of [waitForQueued] and what
    follows it: either the promise of the call resolves, or a resolver is
    queued with [setImmediate] and the call stays suspended. *)
Definition checkQueued (waiter : nat) (m : Machine) : Machine :=
  if 0 <? size (timeoutCallbacks m) then
    mkMachine (timeoutCallbacks m) (immediateQueue m ++ [Resolver waiter])
      (running m) (nextTimeoutId m) (nextWaiter m) (history m)
  else
    mkMachine (timeoutCallbacks m) (immediateQueue m)
      (running m) (nextTimeoutId m) (nextWaiter m)
      (history m ++ [Drained waiter]).

Definition waitForQueued (m : Machine) : Machine :=
  let waiter := nextWaiter m in
  checkQueued waiter
    (mkMachine (timeoutCallbacks m) (immediateQueue m) (running m)
       (nextTimeoutId m) (S waiter) (history m)).

Definition withRunning (f : option Frame) (m : Machine) : Machine :=
  mkMachine (timeoutCallbacks m) (immediateQueue m) f
    (nextTimeoutId m) (nextWaiter m) (history m).

Definition record (e : Event) (m : Machine) : Machine :=
  mkMachine (timeoutCallbacks m) (immediateQueue m) (running m)
    (nextTimeoutId m) (nextWaiter m) (history m ++ [e]).

(** One statement of the running function.  An exception leaves the
    function at once, so that nothing after the call that threw is executed;
    the loop then goes on with the next immediate, as it does under a handler
    for uncaught exceptions. *)
Definition perform (a : Action) (who : option nat) (rest : list Action)
    (m : Machine) : Machine :=
  match a with
  | CallSetTimeout callback =>
      setTimeout callback (withRunning (Some (mkFrame who rest)) m)
  | CallClearTimeout timeoutId =>
      clearTimeout timeoutId (withRunning (Some (mkFrame who rest)) m)
  | CallWaitForQueued =>
      waitForQueued (withRunning (Some (mkFrame who rest)) m)
  | Throw =>
      match who with
      | Some timeoutId => record (Threw timeoutId) (withRunning None m)
      | None => withRunning None m
      end
  end.

(** The end of the arrow function passed to [setImmediate] by
    [setTimeout]: [timeoutCallbacks.delete(timeoutId)] after the callback
    has returned. *)
Definition finish (who : option nat) (m : Machine) : Machine :=
  match who with
  | Some timeoutId =>
      mkMachine (timeoutCallbacks m ∖ {[timeoutId]}) (immediateQueue m) None
        (nextTimeoutId m) (nextWaiter m) (history m)
  | None => withRunning None m
  end.

Definition dequeue (m : Machine) : Machine :=
  match immediateQueue m with
  | [] => m
  | TimeoutWrapper timeoutId callback :: q =>
      mkMachine (timeoutCallbacks m) q
        (Some (mkFrame (Some timeoutId) callback))
        (nextTimeoutId m) (nextWaiter m) (history m ++ [Fired timeoutId])
  | Resolver waiter :: q =>
      checkQueued waiter
        (mkMachine (timeoutCallbacks m) q None
           (nextTimeoutId m) (nextWaiter m) (history m))
  end.

Definition step (m : Machine) : Machine :=
  match running m with
  | Some (mkFrame who (a :: rest)) => perform a who rest m
  | Some (mkFrame who []) => finish who m
  | None => dequeue m
  end.

Definition boot (main : list Action) : Machine :=
  mkMachine ∅ [] (Some (mkFrame None main)) 0 0 [].

Definition run (n : nat) (m : Machine) : Machine := Nat.iter n step m.

(** Nothing is running and nothing is queued. *)
Definition idle (m : Machine) : bool :=
  match running m, immediateQueue m with
  | None, [] => true
  | _, _ => false
  end.

(** The task whose callback is being executed, if any. *)
Definition runningId (m : Machine) : option nat :=
  match running m with
  | Some frame => owner frame
  | None => None
  end.

(** The tasks that are scheduled and have not begun: their wrappers are
    still in the immediate queue. *)
Definition unfired (m : Machine) : list nat :=
  queuedTimeouts (immediateQueue m).

(** What holds of the queue, the pending set and the history at every
    point of every run (see [consistent_run]). *)
Record consistent (m : Machine) : Prop := mkConsistent {
  unfired_nodup : NoDup (unfired m);
  unfired_pending :
    forall t, t ∈ unfired m -> t ∈ timeoutCallbacks m;
  unfired_allocated :
    forall t, t ∈ unfired m -> t < nextTimeoutId m;
  running_not_unfired :
    forall t, runningId m = Some t -> t ∉ unfired m;
  running_allocated :
    forall t, runningId m = Some t -> t < nextTimeoutId m;
  running_pending :
    forall t, runningId m = Some t ->
      t ∈ timeoutCallbacks m \/ Cleared t ∈ history m;
  pending_accounted :
    forall t, t ∈ timeoutCallbacks m ->
      t ∈ unfired m \/ runningId m = Some t \/ Threw t ∈ history m;
  allocated_accounted :
    forall t, t < nextTimeoutId m ->
      t ∈ unfired m \/ Fired t ∈ history m \/ Cleared t ∈ history m;
}.

(** The scenario of three chained tasks: the main script schedules T1 and
    waits for the queue; T1 schedules T2, which schedules T3. *)
Definition chained : list Action :=
  [CallSetTimeout [CallSetTimeout [CallSetTimeout []]]; CallWaitForQueued].

(** A task that schedules another one. *)
Definition nested : list Action :=
  [CallSetTimeout [CallSetTimeout []]].

(** A single task that waits for the queue while it runs. *)
Definition selfWaiting : list Action :=
  [CallSetTimeout [CallWaitForQueued]].

(** A single task whose callback throws. *)
Definition throwing : list Action :=
  [CallSetTimeout [Throw]].

End Timers.

(** ** Host watcher adapter

    [getWatcher] probes an untyped object ([compiler as any]); the values it
    can meet are modelled by a small universe of JavaScript values.  Property
    reads on [undefined] and [null] throw a [TypeError]; accessor
    properties and proxies are not modelled. *)
Module Adapter.

Inductive Value : Type :=
| Undefined
| Null
| Bool (b : bool)
| Number (n : Z)
| Str (s : string)
| Object (properties : list (string * Value)).

Inductive Completion : Type :=
| Returns (v : Value)
| TypeError.

Definition truthy (v : Value) : bool :=
  match v with
  | Undefined | Null => false
  | Bool b => b
  | Number n => negb (Z.eqb n 0)
  | Str s => negb (Nat.eqb (String.length s) 0)
  | Object _ => true
  end.

Definition nullish (v : Value) : bool :=
  match v with
  | Undefined | Null => true
  | _ => false
  end.

Fixpoint lookupProperty (name : string) (properties : list (string * Value))
    : Value :=
  match properties with
  | [] => Undefined
  | (k, v) :: more =>
      if String.eqb k name then v else lookupProperty name more
  end.

(** [v.name] for the property names read by [getWatcher], none of which
    is defined on the prototypes of primitive values. *)
Definition getProperty (v : Value) (name : string) : Completion :=
  match v with
  | Undefined | Null => TypeError
  | Object properties => Returns (lookupProperty name properties)
  | Bool _ | Number _ | Str _ => Returns Undefined
  end.

Definition bind (c : Completion) (k : Value -> Completion) : Completion :=
  match c with
  | Returns v => k v
  | TypeError => TypeError
  end.

Definition getWatcher (compiler : Value) : Completion :=
  bind (getProperty compiler "watchFileSystem") (fun watchFileSystem =>
  bind (getProperty watchFileSystem "watcher") (fun watcher =>
  if truthy watcher then Returns watcher
  else
    bind (getProperty watchFileSystem "wfs") (fun wfs =>
    if truthy wfs then getProperty wfs "watcher" else Returns wfs))).

End Adapter.

(** ** Concrete scenarios *)
Module Scenario.

#[local] Existing Instance memoryStore.

Definition fresh : State := initialState (∅ : gmap string string).

(** Directory watchers on [/], [/a] and [/a/b]: callbacks 0, 1 and 2 are
    recursive, callbacks 3, 4 and 5 are not. *)
Definition treeWatched : State :=
  let s := (watchDirectory "/" 0 true fresh).1 in
  let s := (watchDirectory "/a" 1 true s).1 in
  let s := (watchDirectory "/a/b" 2 true s).1 in
  let s := (watchDirectory "/a/b" 3 false s).1 in
  let s := (watchDirectory "/a" 4 false s).1 in
  (watchDirectory "/" 5 false s).1.

(** Callback 7 watches [/f] through two [watchFile] calls. *)
Definition firstHandle : FileWatcher := (watchFile "/f" 7 fresh).2.

Definition watchedTwice : State :=
  (watchFile "/f" 7 (watchFile "/f" 7 fresh).1).1.

(** Callback 0 watches [/f]; [/f] has been written and then deleted. *)
Definition deletedFile : World :=
  deleteFile inert "/f"
    (writeFile inert "/f" "x" (mkWorld (watchFile "/f" 0 fresh).1 [])).

(** A callback that changes the registry while it is called: callback 0
    registers callback 2 on the path it is called for and closes the
    registration of callback 1 there. *)
Definition meddling (i : Invocation) (s : State) : State :=
  match i with
  | FileWatcherCall 0 path _ =>
      close (mkFileWatcher FileWatchers path 1)
        (createWatcher FileWatchers path 2 s).1
  | _ => s
  end.

Definition watchedByTwo : State :=
  (watchFile "/f" 1 (watchFile "/f" 0 fresh).1).1.

End Scenario.

(** ** Further notions used by the properties *)

#[global] Instance registry_eq_dec : EqDecision Registry.
Proof. solve_decision. Defined.

(** No registry holds an empty callback list under any path. *)
Definition noEmptyEntries `{PFS : PassiveFileSystem} (s : State) : Prop :=
  forall r path, watchersOf r s !! path <> Some [].

(** A call that a notification for [path] may make: any directory watcher
    call for [path], and file watcher calls for [path] with one of the
    listed events. *)
Definition allowedCall (path : string) (events : list FileWatcherEventKind)
    (i : Invocation) : Prop :=
  match i with
  | DirectoryWatcherCall _ fileName => fileName = path
  | FileWatcherCall _ fileName event => fileName = path /\ In event events
  end.

(** ** Further notions about the task queue *)
Module Tasks.
Import Timers.

(** The tasks whose callbacks have begun, in the order they began. *)
Definition firedIds (h : list Event) : list nat :=
  omap (fun e => match e with
                 | Fired t => Some t
                 | _ => None
                 end) h.

(** Task ids are handed out in increasing order, and the queue and the
    history respect it (see [ordered_run]). *)
Record ordered (m : Machine) : Prop := mkOrdered {
  pending_allocated :
    forall t, t ∈ timeoutCallbacks m -> t < nextTimeoutId m;
  fired_allocated :
    forall t, Fired t ∈ history m -> t < nextTimeoutId m;
  unfired_sorted : StronglySorted lt (unfired m);
  fired_sorted : StronglySorted lt (firedIds (history m));
  fired_before_unfired :
    forall f u, Fired f ∈ history m -> u ∈ unfired m -> f < u;
  running_fired :
    forall t, runningId m = Some t -> Fired t ∈ history m;
  thrown_fired :
    forall t, Threw t ∈ history m -> Fired t ∈ history m;
  thrown_not_running :
    forall t, Threw t ∈ history m -> runningId m <> Some t;
  thrown_pending :
    forall t, Threw t ∈ history m ->
      t ∈ timeoutCallbacks m \/ Cleared t ∈ history m;
}.

(** A function that never throws, and schedules only such functions. *)
Fixpoint throwFree (a : Action) : bool :=
  match a with
  | CallSetTimeout callback => forallb throwFree callback
  | Throw => false
  | CallClearTimeout _ | CallWaitForQueued => true
  end.

Definition wrapperThrowFree (i : Immediate) : bool :=
  match i with
  | TimeoutWrapper _ callback => forallb throwFree callback
  | Resolver _ => true
  end.

(** Nothing that runs or is queued throws, and nothing has thrown. *)
Record quiet (m : Machine) : Prop := mkQuiet {
  running_quiet :
    forall frame, running m = Some frame ->
      forallb throwFree (rest frame) = true;
  queue_quiet : forallb wrapperThrowFree (immediateQueue m) = true;
  nothing_thrown : forall t, Threw t ∉ history m;
}.

(** Every call of [waitForQueued] has returned or has its resolver in the
    queue. *)
Definition answered (m : Machine) : Prop :=
  forall w, w < nextWaiter m ->
    Drained w ∈ history m \/ Resolver w ∈ immediateQueue m.

(** The steps that the calls of a function body stand for: one per call,
    and for each scheduled callback one to start it, those of its body and
    one to leave it. *)
Fixpoint actionWeight (a : Action) : nat :=
  match a with
  | CallSetTimeout callback =>
      3 + (fix weigh (body : list Action) : nat :=
             match body with
             | [] => 0
             | b :: body' => actionWeight b + weigh body'
             end) callback
  | CallClearTimeout _ | CallWaitForQueued | Throw => 1
  end.

Fixpoint bodyWeight (body : list Action) : nat :=
  match body with
  | [] => 0
  | b :: body' => actionWeight b + bodyWeight body'
  end.

Fixpoint queueWeight (q : list Immediate) : nat :=
  match q with
  | [] => 0
  | TimeoutWrapper _ callback :: q' => 2 + bodyWeight callback + queueWeight q'
  | Resolver _ :: q' => queueWeight q'
  end.

(** The work left: the steps of the running function and of the queued
    tasks. *)
Definition work (m : Machine) : nat :=
  match running m with
  | Some frame => 1 + bodyWeight (rest frame)
  | None => 0
  end + queueWeight (immediateQueue m).

Fixpoint resolvers (q : list Immediate) : nat :=
  match q with
  | [] => 0
  | Resolver _ :: q' => S (resolvers q')
  | TimeoutWrapper _ _ :: q' => resolvers q'
  end.

(** The resolvers in front of the first queued task. *)
Fixpoint leadingResolvers (q : list Immediate) : nat :=
  match q with
  | Resolver _ :: q' => S (leadingResolvers q')
  | _ => 0
  end.

(** [closer m' m]: less work is left in [m'] than in [m], or as much with
    fewer resolvers queued, or as much of both with fewer resolvers in
    front of the first queued task. *)
Definition closer (m' m : Machine) : Prop :=
  work m' < work m
  \/ (work m' = work m
      /\ (resolvers (immediateQueue m') < resolvers (immediateQueue m)
          \/ (resolvers (immediateQueue m') = resolvers (immediateQueue m)
              /\ leadingResolvers (immediateQueue m')
                 < leadingResolvers (immediateQueue m)))).

(** The main script schedules a task and cancels it at once. *)
Definition cancelling : list Action :=
  [CallSetTimeout [CallSetTimeout []]; CallClearTimeout 0].

(** The main script schedules a task whose callback throws, and waits for
    the queue. *)
Definition throwingThenWaiting : list Action :=
  [CallSetTimeout [Throw]; CallWaitForQueued].

End Tasks.

(** ** A watched file in the watched tree *)
Module OrderScenario.

#[local] Existing Instance memoryStore.



End OrderScenario.

(** * Properties *)

(** ** The directory walk terminates *)
Module PosixFacts.
Import Posix.

Lemma scan_bound path i matchedSlash e :
  scan path i matchedSlash = Some e ->
  e <= i /\ (matchedSlash = true -> e < i).
Proof.
  revert matchedSlash.
  induction i as [|j IH]; intros matchedSlash; cbn [scan]; [discriminate|].
  destruct (isSlash (get (S j) path)).
  - destruct matchedSlash.
    + intros H. apply IH in H as [H1 H2]. split; [lia|]. intros _.
      specialize (H2 eq_refl). lia.
    + intros [= <-]. split; [lia|discriminate].
  - intros H. apply IH in H as [H1 _]. split; lia.
Qed.

Lemma length_substring_le m s : String.length (substring 0 m s) <= m.
Proof.
  revert s. induction m as [|m IH]; intros [|c s]; cbn; try lia.
  specialize (IH s). lia.
Qed.

(** A directory of two characters or more has a strictly shorter parent. *)
Lemma dirname_shorter d :
  2 <= String.length d -> String.length (dirname d) < String.length d.
Proof.
  intros Hlen. unfold dirname.
  destruct (Nat.eqb_spec (String.length d) 0) as [H0|_]; [lia|].
  destruct (scan d (String.length d - 1) true) as [e|] eqn:Hscan.
  - apply scan_bound in Hscan as [_ He]. specialize (He eq_refl).
    destruct (isSlash (get 0 d) && Nat.eqb e 1) eqn:Hroot.
    + apply andb_prop in Hroot as [_ He1].
      apply Nat.eqb_eq in He1. cbn. lia.
    + pose proof (length_substring_le e d). lia.
  - destruct (isSlash (get 0 d)); cbn; lia.
Qed.

(** Shorter directories have the root or the current directory as
    parent. *)
Lemma dirname_short d :
  String.length d <= 1 -> dirname d = "/" \/ dirname d = ".".
Proof.
  intros Hlen. unfold dirname.
  destruct (Nat.eqb_spec (String.length d) 0) as [H0|H0]; [now right|].
  replace (String.length d - 1) with 0 by lia. cbn [scan].
  destruct (isSlash (get 0 d)); [now left | now right].
Qed.

Lemma dirname_fixed_root : dirname "/" = "/".
Proof. reflexivity. Qed.

Lemma dirname_fixed_dot : dirname "." = ".".
Proof. reflexivity. Qed.

Example dirname_file : dirname "/a/b/c.txt" = "/a/b".
Proof. reflexivity. Qed.

Example dirname_top : dirname "/a" = "/".
Proof. reflexivity. Qed.

Example dirname_trailing : dirname "/a/b/" = "/a".
Proof. reflexivity. Qed.

Example dirname_relative : dirname "c.txt" = ".".
Proof. reflexivity. Qed.

Example dirname_double : dirname "//a" = "//".
Proof. reflexivity. Qed.

(** The chain [d, dirname d, dirname (dirname d), ...] reaches a fixed
    point of [dirname] in at most [String.length d + 1] steps. *)
Lemma dirname_chain_ends d :
  exists k, k <= String.length d + 1 /\
    Nat.iter k dirname d = dirname (Nat.iter k dirname d).
Proof.
  remember (String.length d) as n eqn:Hn.
  revert d Hn. induction n as [n IH] using lt_wf_ind. intros d Hn.
  destruct (le_lt_dec (String.length d) 1) as [Hshort|Hlong].
  - exists 1. split; [lia|]. cbn.
    destruct (dirname_short d Hshort) as [-> | ->]; reflexivity.
  - pose proof (dirname_shorter d Hlong) as Hlt.
    destruct (IH (String.length (dirname d)) ltac:(lia) (dirname d) eq_refl)
      as (k & Hk & Hfix).
    exists (S k). split; [lia|].
    rewrite !Nat.iter_succ_r. exact Hfix.
Qed.

End PosixFacts.

(** ** Dispatch: traces and frame properties *)
Section DispatchFacts.

Context `{PFS : PassiveFileSystem}.
Variable effect : Invocation -> State -> State.

(** Enough fuel: the loop of [invokeDirectoryWatchers] always leaves
    through its condition, whatever larger bound is given. *)
Lemma ancestorLoop_fuel fuel path directory w :
  ancestorFuel directory <= fuel ->
  ancestorLoop effect fuel path directory w
  = ancestorLoop effect (ancestorFuel directory) path directory w.
Proof.
  unfold ancestorFuel.
  assert (Hgen : forall n d f1 f2 w0,
    String.length d = n ->
    String.length d + 2 <= f1 -> String.length d + 2 <= f2 ->
    ancestorLoop effect f1 path d w0 = ancestorLoop effect f2 path d w0).
  { induction n as [n IH] using lt_wf_ind.
    intros d [|f1] [|f2] w0 Hn H1 H2; try lia. cbn [ancestorLoop].
    destruct (decide (d = Posix.dirname d)) as [_|Hne]; [reflexivity|].
    destruct (le_lt_dec (String.length d) 1) as [Hshort|Hlong].
    - destruct f1 as [|f1], f2 as [|f2]; try lia. cbn [ancestorLoop].
      destruct (PosixFacts.dirname_short d Hshort) as [-> | ->];
        reflexivity.
    - pose proof (PosixFacts.dirname_shorter d Hlong).
      eapply IH; [|reflexivity| |]; lia. }
  intros Hfuel. eapply Hgen; [reflexivity| |]; lia.
Qed.

Lemma trace_forEach mk callbacks w :
  trace (forEach effect mk callbacks w) = trace w ++ map mk callbacks.
Proof.
  unfold forEach. revert w.
  induction callbacks as [|cb cbs IH]; intros w; cbn.
  - now rewrite app_nil_r.
  - rewrite IH. cbn. now rewrite <- app_assoc.
Qed.

Lemma trace_forEachIfPresent mk callbacks w :
  trace (forEachIfPresent effect mk callbacks w)
  = trace w ++ map mk (default [] callbacks).
Proof.
  destruct callbacks as [cbs|]; cbn.
  - apply trace_forEach.
  - now rewrite app_nil_r.
Qed.

Lemma trace_invokeFileWatchers path event w :
  trace (invokeFileWatchers effect path event w)
  = trace w ++ fileCalls event path w.
Proof. apply trace_forEachIfPresent. Qed.

Lemma directoryCalls_map path callbacks :
  directoryCalls path (map (fun cb => DirectoryWatcherCall cb path) callbacks).
Proof.
  apply Forall_forall. intros i Hi. apply list_elem_of_In in Hi.
  apply in_map_iff in Hi as (cb & <- & _). now exists cb.
Qed.

Lemma trace_ancestorLoop fuel path directory w :
  exists calls,
    trace (ancestorLoop effect fuel path directory w) = trace w ++ calls
    /\ directoryCalls path calls.
Proof.
  revert directory w.
  induction fuel as [|fuel IH]; intros directory w; cbn [ancestorLoop].
  - exists []. split; [now rewrite app_nil_r | constructor].
  - destruct (decide (directory = Posix.dirname directory)).
    + exists []. split; [now rewrite app_nil_r | constructor].
    + edestruct IH as (calls & -> & Hcalls).
      rewrite trace_forEachIfPresent. eexists. rewrite <- app_assoc.
      split; [reflexivity|].
      apply Forall_app. split; [apply directoryCalls_map | exact Hcalls].
Qed.

Lemma trace_invokeDirectoryWatchers path w :
  exists calls,
    trace (invokeDirectoryWatchers effect path w) = trace w ++ calls
    /\ directoryCalls path calls.
Proof.
  unfold invokeDirectoryWatchers.
  edestruct trace_ancestorLoop as (calls & -> & Hcalls).
  rewrite trace_forEachIfPresent. eexists. rewrite <- app_assoc.
  split; [reflexivity|].
  apply Forall_app. split; [apply directoryCalls_map | exact Hcalls].
Qed.

(** The loop never looks up a directory that is its own parent, the root
    in particular. *)
Lemma walked_proper fuel directory d :
  d ∈ walked fuel directory -> d <> Posix.dirname d.
Proof.
  revert directory. induction fuel as [|fuel IH]; intros directory; cbn.
  - intros Hin. now apply elem_of_nil in Hin.
  - destruct (decide (directory = Posix.dirname directory)) as [|Hne].
    + intros Hin. now apply elem_of_nil in Hin.
    + intros [->|Hin]%elem_of_cons; [exact Hne | now apply (IH _ Hin)].
Qed.

Lemma root_not_walked fuel directory : "/" ∉ walked fuel directory.
Proof. intros Hin. now apply walked_proper in Hin. Qed.

(** The walk stops because its condition fails: after the last walked
    directory, [directory] is its own parent. *)
Lemma walked_ends directory :
  let k := length (walked (ancestorFuel directory) directory) in
  Nat.iter k Posix.dirname directory
  = Posix.dirname (Nat.iter k Posix.dirname directory).
Proof.
  cbv zeta. unfold ancestorFuel.
  assert (Hgen : forall n d fuel,
    String.length d = n -> String.length d + 2 <= fuel ->
    Nat.iter (length (walked fuel d)) Posix.dirname d
    = Posix.dirname (Nat.iter (length (walked fuel d)) Posix.dirname d)).
  { induction n as [n IH] using lt_wf_ind.
    intros d [|fuel] Hn Hfuel; [lia|]. cbn [walked].
    destruct (decide (d = Posix.dirname d)) as [Hfix|Hne]; [exact Hfix|].
    cbn [length]. rewrite !Nat.iter_succ_r.
    destruct (le_lt_dec (String.length d) 1) as [Hshort|Hlong].
    - destruct fuel as [|fuel]; [lia|].
      destruct (PosixFacts.dirname_short d Hshort) as [-> | ->];
        reflexivity.
    - pose proof (PosixFacts.dirname_shorter d Hlong).
      eapply IH; [|reflexivity|]; lia. }
  eapply Hgen; [reflexivity | lia].
Qed.

(** Frame: an observation of the state that no callback changes is not
    changed by the dispatch code either. *)
Section Frame.

Context {A : Type} (observe : State -> A).
Hypothesis effect_keeps : forall i s, observe (effect i s) = observe s.

Lemma forEach_keeps mk callbacks w :
  observe (state (forEach effect mk callbacks w)) = observe (state w).
Proof.
  unfold forEach. revert w.
  induction callbacks as [|cb cbs IH]; intros w; cbn; [reflexivity|].
  rewrite IH. cbn. apply effect_keeps.
Qed.

Lemma forEachIfPresent_keeps mk callbacks w :
  observe (state (forEachIfPresent effect mk callbacks w))
  = observe (state w).
Proof. destruct callbacks; cbn; [apply forEach_keeps | reflexivity]. Qed.

Lemma invokeFileWatchers_keeps path event w :
  observe (state (invokeFileWatchers effect path event w))
  = observe (state w).
Proof. apply forEachIfPresent_keeps. Qed.

Lemma ancestorLoop_keeps fuel path directory w :
  observe (state (ancestorLoop effect fuel path directory w))
  = observe (state w).
Proof.
  revert directory w.
  induction fuel as [|fuel IH]; intros directory w; cbn [ancestorLoop];
    [reflexivity|].
  destruct (decide (directory = Posix.dirname directory)); [reflexivity|].
  rewrite IH. apply forEachIfPresent_keeps.
Qed.

Lemma invokeDirectoryWatchers_keeps path w :
  observe (state (invokeDirectoryWatchers effect path w))
  = observe (state w).
Proof.
  unfold invokeDirectoryWatchers. rewrite ancestorLoop_keeps.
  apply forEachIfPresent_keeps.
Qed.

End Frame.

(** With callbacks that leave the recursive registry alone, the directory
    notification calls the non-recursive watchers of the parent directory,
    then the recursive watchers of each walked directory, nearest first. *)
Lemma trace_ancestorLoop_walked fuel path directory w :
  (forall i s, recursiveDirectoryWatchersMap (effect i s)
               = recursiveDirectoryWatchersMap s) ->
  trace (ancestorLoop effect fuel path directory w)
  = trace w
    ++ flat_map
         (fun d => map (fun cb => DirectoryWatcherCall cb path)
                     (registered RecursiveDirectoryWatchers d (state w)))
         (walked fuel directory).
Proof.
  intros Hkeep. revert directory w.
  induction fuel as [|fuel IH]; intros directory w; cbn [ancestorLoop walked].
  - cbn. now rewrite app_nil_r.
  - destruct (decide (directory = Posix.dirname directory)).
    + cbn. now rewrite app_nil_r.
    + rewrite IH, trace_forEachIfPresent. cbn [flat_map].
      rewrite <- app_assoc. do 2 f_equal.
      apply flat_map_ext. intros d. unfold registered.
      cbn [watchersOf].
      now rewrite (forEachIfPresent_keeps recursiveDirectoryWatchersMap Hkeep).
Qed.

Lemma trace_invokeDirectoryWatchers_walked path w :
  (forall i s, recursiveDirectoryWatchersMap (effect i s)
               = recursiveDirectoryWatchersMap s) ->
  let directory := Posix.dirname path in
  trace (invokeDirectoryWatchers effect path w)
  = trace w
    ++ map (fun cb => DirectoryWatcherCall cb path)
         (registered DirectoryWatchers directory (state w))
    ++ flat_map
         (fun d => map (fun cb => DirectoryWatcherCall cb path)
                     (registered RecursiveDirectoryWatchers d (state w)))
         (walked (ancestorFuel directory) directory).
Proof.
  intros Hkeep. cbv zeta. unfold invokeDirectoryWatchers.
  rewrite trace_ancestorLoop_walked by exact Hkeep.
  rewrite trace_forEachIfPresent, <- app_assoc. do 2 f_equal.
  apply flat_map_ext. intros d. unfold registered. cbn [watchersOf].
  now rewrite (forEachIfPresent_keeps recursiveDirectoryWatchersMap Hkeep).
Qed.

Lemma markedDeleted_setDeleted path flag s :
  markedDeleted path (setDeleted path flag s) = flag.
Proof.
  unfold markedDeleted, setDeleted. cbn. rewrite lookup_insert_eq.
  now destruct flag.
Qed.

End DispatchFacts.

(** ** Registry: registration and closing *)
Section RegistryFacts.

Context `{PFS : PassiveFileSystem}.

Lemma watchersOf_withWatchers r m s : watchersOf r (withWatchers r m s) = m.
Proof. now destruct r. Qed.

Lemma registered_createWatcher r path callback s :
  registered r path (createWatcher r path callback s).1
  = registered r path s ++ [callback].
Proof.
  unfold registered, createWatcher. cbn.
  now rewrite watchersOf_withWatchers, lookup_insert_eq.
Qed.

Lemma lookup_close r path callback s :
  let kept := filter (fun watcher => watcher <> callback)
                (registered r path s) in
  watchersOf r (close (mkFileWatcher r path callback) s) !! path
  = if 0 <? length kept then Some kept else None.
Proof.
  unfold close, registered.
  cbn [watchersMap watchedPath watchedCallback]. cbv zeta.
  match goal with |- context [0 <? ?n] => destruct (0 <? n) end;
    rewrite watchersOf_withWatchers.
  - apply lookup_insert_eq.
  - apply lookup_delete_eq.
Qed.

Lemma registered_close r path callback s :
  registered r path (close (mkFileWatcher r path callback) s)
  = filter (fun watcher => watcher <> callback) (registered r path s).
Proof.
  unfold registered at 1. rewrite lookup_close.
  destruct (filter _ _) as [|x l]; reflexivity.
Qed.

Lemma filter_keeps_other (callback other : Callback) l :
  other <> callback ->
  filter (fun watcher => watcher <> callback) (l ++ [other])
  = filter (fun watcher => watcher <> callback) l ++ [other].
Proof.
  intros Hne. rewrite filter_app. f_equal.
  cbn. unfold filter, list_filter. now destruct (decide (other <> callback)).
Qed.

Lemma filter_drops_same (callback : Callback) l :
  filter (fun watcher => watcher <> callback) (l ++ [callback])
  = filter (fun watcher => watcher <> callback) l.
Proof.
  rewrite filter_app. cbn. unfold filter at 2, list_filter.
  destruct (decide (callback <> callback)) as [Hne|_]; [congruence|].
  apply app_nil_r.
Qed.

End RegistryFacts.

(** ** Notifications *)
Section NotificationFacts.

Context `{PFS : PassiveFileSystem}.
Variable effect : Invocation -> State -> State.

(** C8: a file notification calls exactly the callbacks that were
    registered for the path when the notification began, once per
    registration and in registration order, whatever the callbacks do to
    the registry while the notification runs. *)
Theorem file_notification_uses_snapshot path event w :
  let snapshot := registered FileWatchers path (state w) in
  trace (invokeFileWatchers effect path event w)
  = trace w ++ map (fun cb => FileWatcherCall cb path event) snapshot.
Proof. cbv zeta. apply trace_invokeFileWatchers. Qed.

(** The order of the calls of the change notification and of the delete
    notification: the calls of the directory notification, then the calls
    of the file notification, and nothing else (a delete notification on a
    path already marked deleted makes no call). *)
Theorem directory_watchers_run_before_file_watchers path w :
  let p := normalizePath path in
  let notified := invokeDirectoryWatchers effect p w in
  (exists dirCalls,
     trace notified = trace w ++ dirCalls /\ directoryCalls p dirCalls)
  /\ trace (invokeFileChanged effect path w)
     = trace notified
       ++ fileCalls (if markedDeleted p (state notified) then Created
                     else Changed) p notified
  /\ trace (invokeFileDeleted effect path w)
     = if markedDeleted p (state w) then trace w
       else trace notified ++ fileCalls Deleted p notified.
Proof.
  cbv zeta. split; [apply trace_invokeDirectoryWatchers|]. split.
  - unfold invokeFileChanged.
    destruct (markedDeleted _ _); cbn; apply trace_invokeFileWatchers.
  - unfold invokeFileDeleted.
    destruct (markedDeleted _ _); cbn; [reflexivity|].
    apply trace_invokeFileWatchers.
Qed.

(** C6: the delete notification is idempotent.  On a path that is not
    marked deleted it makes the directory notification, calls the file
    watchers with "Deleted" and marks the path; made again on the result,
    it changes nothing and calls nothing. *)
Theorem delete_notification_idempotent path w :
  let p := normalizePath path in
  let once := invokeFileDeleted effect path w in
  (markedDeleted p (state w) = false ->
     let notified := invokeDirectoryWatchers effect p w in
     (exists dirCalls,
        trace notified = trace w ++ dirCalls /\ directoryCalls p dirCalls)
     /\ trace once = trace notified ++ fileCalls Deleted p notified
     /\ markedDeleted p (state once) = true)
  /\ invokeFileDeleted effect path once = once.
Proof.
  cbv zeta. split.
  - intros Hfresh. split; [apply trace_invokeDirectoryWatchers|].
    unfold invokeFileDeleted. rewrite Hfresh. cbn. split.
    + apply trace_invokeFileWatchers.
    + apply markedDeleted_setDeleted.
  - unfold invokeFileDeleted at 1.
    replace (markedDeleted (normalizePath path)
               (state (invokeFileDeleted effect path w))) with true;
      [reflexivity|].
    unfold invokeFileDeleted.
    destruct (markedDeleted (normalizePath path) (state w)) eqn:Hmark; cbn.
    + now rewrite Hmark.
    + now rewrite markedDeleted_setDeleted.
Qed.

Lemma markedDeleted_onFileSystem p f w :
  markedDeleted p (state (onFileSystem f w)) = markedDeleted p (state w).
Proof. reflexivity. Qed.

(** C5: with callbacks that leave the deleted mark of the path alone, a
    write always makes the directory notification; on a path that is not
    marked deleted it calls the file watchers with "Changed"; on a path
    marked deleted it calls them with "Created", once per registration,
    and clears the mark, so that the next write calls them with "Changed". *)
Theorem write_fires_changed_or_created path data w :
  let p := normalizePath path in
  (forall i s, markedDeleted p (effect i s) = markedDeleted p s) ->
  let notified :=
    invokeDirectoryWatchers effect p
      (onFileSystem (storeWriteFile path data) w) in
  let written := writeFile effect path data w in
  (exists dirCalls,
     trace notified = trace w ++ dirCalls /\ directoryCalls p dirCalls)
  /\ (markedDeleted p (state w) = false ->
        trace written = trace notified ++ fileCalls Changed p notified
        /\ markedDeleted p (state written) = false)
  /\ (markedDeleted p (state w) = true ->
        trace written = trace notified ++ fileCalls Created p notified
        /\ markedDeleted p (state written) = false
        /\ forall data',
             let notified' :=
               invokeDirectoryWatchers effect p
                 (onFileSystem (storeWriteFile path data') written) in
             trace (writeFile effect path data' written)
             = trace notified' ++ fileCalls Changed p notified').
Proof.
  cbv zeta. intros Hframe.
  assert (Hdir : forall w0,
    markedDeleted (normalizePath path)
      (state (invokeDirectoryWatchers effect (normalizePath path) w0))
    = markedDeleted (normalizePath path) (state w0)).
  { intros w0. now apply invokeDirectoryWatchers_keeps. }
  assert (Hfile : forall ev w0,
    markedDeleted (normalizePath path)
      (state (invokeFileWatchers effect (normalizePath path) ev w0))
    = markedDeleted (normalizePath path) (state w0)).
  { intros ev w0. now apply invokeFileWatchers_keeps. }
  assert (Hchanged : forall w0,
    markedDeleted (normalizePath path) (state w0) = false ->
    invokeFileChanged effect path w0
    = invokeFileWatchers effect (normalizePath path) Changed
        (invokeDirectoryWatchers effect (normalizePath path) w0)).
  { intros w0 H0. unfold invokeFileChanged. now rewrite Hdir, H0. }
  split.
  { destruct (trace_invokeDirectoryWatchers effect (normalizePath path)
                (onFileSystem (storeWriteFile path data) w))
      as (dirCalls & Htrace & Hcalls).
    exists dirCalls. split; [exact Htrace | exact Hcalls]. }
  split.
  - intros Hfresh. unfold writeFile. rewrite Hchanged by exact Hfresh.
    split; [apply trace_invokeFileWatchers|].
    now rewrite Hfile, Hdir.
  - intros Hmarked.
    assert (Hcleared :
      markedDeleted (normalizePath path)
        (state (writeFile effect path data w)) = false).
    { unfold writeFile, invokeFileChanged.
      rewrite Hdir, markedDeleted_onFileSystem, Hmarked. cbn.
      apply markedDeleted_setDeleted. }
    split; [|split; [exact Hcleared|]].
    + unfold writeFile, invokeFileChanged.
      rewrite Hdir, markedDeleted_onFileSystem, Hmarked. cbn.
      apply trace_invokeFileWatchers.
    + intros data'. unfold writeFile at 1.
      rewrite Hchanged by exact Hcleared.
      apply trace_invokeFileWatchers.
Qed.

(** C4 (amended): with callbacks that leave the deleted mark of the path
    alone, the change notification on a path marked deleted calls the file
    watchers with "Created" and clears the mark, whereas [setModifiedTime]
    calls them with "Changed" and leaves the path marked deleted. *)
Theorem setModifiedTime_keeps_deleted_mark path date w :
  let p := normalizePath path in
  (forall i s, markedDeleted p (effect i s) = markedDeleted p s) ->
  markedDeleted p (state w) = true ->
  (let notified := invokeDirectoryWatchers effect p w in
   let changed := invokeFileChanged effect path w in
   trace changed = trace notified ++ fileCalls Created p notified
   /\ markedDeleted p (state changed) = false)
  /\ (let notified :=
        invokeDirectoryWatchers effect p
          (onFileSystem (storeUpdateTimes path date date) w) in
      let touched := setModifiedTime effect path date w in
      trace touched = trace notified ++ fileCalls Changed p notified
      /\ markedDeleted p (state touched) = true).
Proof.
  cbv zeta. intros Hframe Hmarked. split.
  - unfold invokeFileChanged.
    rewrite (invokeDirectoryWatchers_keeps effect _ Hframe), Hmarked. cbn.
    split; [apply trace_invokeFileWatchers|apply markedDeleted_setDeleted].
  - unfold setModifiedTime. split; [apply trace_invokeFileWatchers|].
    rewrite (invokeFileWatchers_keeps effect _ Hframe).
    rewrite (invokeDirectoryWatchers_keeps effect _ Hframe).
    exact Hmarked.
Qed.

(** C2 (amended): a handle closes by callback identity.  With two
    registrations of distinct callbacks on a path, closing the first
    leaves the second registered and called by later notifications; with
    the identical callback registered twice, closing one handle removes
    both registrations, and the callback is not called any more. *)
Theorem close_removes_by_callback_identity path cb cb' s event t :
  cb <> cb' ->
  let p := normalizePath path in
  let kept :=
    filter (fun watcher => watcher <> cb) (registered FileWatchers p s) in
  let first := watchFile path cb s in
  (let second := watchFile path cb' first.1 in
   let closed := close first.2 second.1 in
   registered FileWatchers p closed = kept ++ [cb']
   /\ In (FileWatcherCall cb' p event)
        (trace (invokeFileWatchers effect p event (mkWorld closed t))))
  /\ (let second := watchFile path cb first.1 in
      let closed := close first.2 second.1 in
      registered FileWatchers p closed = kept
      /\ close second.2 second.1 = closed
      /\ trace (invokeFileWatchers effect p event (mkWorld closed t))
         = t ++ map (fun other => FileWatcherCall other p event) kept
      /\ ~ In cb kept).
Proof.
  cbv zeta. intros Hne. unfold watchFile. split.
  - assert (Hreg :
      registered FileWatchers (normalizePath path)
        (close (createWatcher FileWatchers (normalizePath path) cb s).2
           (createWatcher FileWatchers (normalizePath path) cb'
              (createWatcher FileWatchers (normalizePath path) cb s).1).1)
      = filter (fun watcher => watcher <> cb)
          (registered FileWatchers (normalizePath path) s) ++ [cb']).
    { cbn [createWatcher snd]. rewrite registered_close.
      rewrite !registered_createWatcher.
      rewrite filter_keeps_other by congruence.
      now rewrite filter_drops_same. }
    split; [exact Hreg|].
    rewrite trace_invokeFileWatchers. unfold fileCalls. cbn [state].
    rewrite Hreg. apply in_or_app. right. apply in_map_iff.
    exists cb'. split; [reflexivity|]. apply in_or_app. right. now left.
  - assert (Hreg :
      registered FileWatchers (normalizePath path)
        (close (createWatcher FileWatchers (normalizePath path) cb s).2
           (createWatcher FileWatchers (normalizePath path) cb
              (createWatcher FileWatchers (normalizePath path) cb s).1).1)
      = filter (fun watcher => watcher <> cb)
          (registered FileWatchers (normalizePath path) s)).
    { cbn [createWatcher snd]. rewrite registered_close.
      rewrite !registered_createWatcher.
      now rewrite !filter_drops_same. }
    split; [exact Hreg|]. split; [reflexivity|]. split.
    + rewrite trace_invokeFileWatchers. unfold fileCalls. cbn [state].
      now rewrite Hreg.
    + intros Hin. apply list_elem_of_In, list_elem_of_filter in Hin.
      now destruct Hin as [Hcb _].
Qed.

End NotificationFacts.

(** ** The scenarios of the watcher registry *)
Module ScenarioFacts.
Import Scenario.

#[local] Existing Instance memoryStore.

(** C1 (code defect): writing [/a/b/c.txt] calls the non-recursive watcher
    registered on [/a/b] and the recursive watchers registered on [/a/b]
    and [/a], and never the recursive watcher registered on [/]: the walk
    stops on reaching the root, before the root's watchers are looked up.
    The root's recursive watcher is not even called for a direct child of
    the root, although the root's non-recursive watcher is. *)
Theorem root_recursive_watcher_not_invoked :
  trace (writeFile inert "/a/b/c.txt" "x" (mkWorld treeWatched []))
  = [DirectoryWatcherCall 3 "/a/b/c.txt";
     DirectoryWatcherCall 2 "/a/b/c.txt";
     DirectoryWatcherCall 1 "/a/b/c.txt"]
  /\ registered RecursiveDirectoryWatchers "/" treeWatched = [0]
  /\ trace (writeFile inert "/c.txt" "x" (mkWorld treeWatched []))
     = [DirectoryWatcherCall 5 "/c.txt"].
Proof. vm_compute. repeat split. Qed.

(** The walk for a file of [/a/b] looks up [/a/b] and [/a] only. *)
Example walked_from_nested_directory :
  walked (ancestorFuel "/a/b") "/a/b" = ["/a/b"; "/a"]
  /\ walked (ancestorFuel "/") "/" = [].
Proof. split; reflexivity. Qed.

(** C2, as stated, fails: after the identical callback is registered twice
    on [/f] and one handle is closed, no registration is left and a later
    change of [/f] calls nothing. *)
Lemma close_one_of_two_identical_counterexample :
  registered FileWatchers "/f" watchedTwice = [7; 7]
  /\ fileWatchersMap (close firstHandle watchedTwice) !! "/f" = None
  /\ trace (invokeFileChanged inert "/f"
              (mkWorld (close firstHandle watchedTwice) [])) = [].
Proof. vm_compute. repeat split. Qed.

(** Callbacks 7 and 8 on [/f]: closing the handle of 7 leaves 8; with 7
    registered twice, closing one handle leaves nothing. *)
Lemma close_removes_by_callback_identity_witness :
  7 <> 8
  /\ registered FileWatchers "/f"
       (close (watchFile "/f" 7 fresh).2
          (watchFile "/f" 8 (watchFile "/f" 7 fresh).1).1) = [8]
  /\ registered FileWatchers "/f"
       (close (watchFile "/f" 7 fresh).2
          (watchFile "/f" 7 (watchFile "/f" 7 fresh).1).1) = [].
Proof.
  assert (Hne : 7 <> 8) by discriminate.
  destruct (close_removes_by_callback_identity inert "/f" 7 8 fresh
              Changed [] Hne) as [[Hdistinct _] [Hsame _]].
  split; [exact Hne|]. split.
  - etransitivity; [exact Hdistinct | reflexivity].
  - etransitivity; [exact Hsame | reflexivity].
Defined.

(** C4, as stated, fails: [setModifiedTime] on a path marked deleted calls
    the file watcher with "Changed" and the path stays marked deleted. *)
Lemma setModifiedTime_counterexample :
  trace deletedFile
  = [FileWatcherCall 0 "/f" Changed; FileWatcherCall 0 "/f" Deleted]
  /\ markedDeleted "/f" (state deletedFile) = true
  /\ trace (setModifiedTime inert "/f" 0%Z (mkWorld (state deletedFile) []))
     = [FileWatcherCall 0 "/f" Changed]
  /\ markedDeleted "/f"
       (state (setModifiedTime inert "/f" 0%Z
                 (mkWorld (state deletedFile) []))) = true.
Proof. vm_compute. repeat split. Qed.

(** On the deleted [/f]: the change notification clears the mark,
    [setModifiedTime] does not. *)
Lemma setModifiedTime_keeps_deleted_mark_witness :
  markedDeleted "/f" (state deletedFile) = true
  /\ markedDeleted "/f" (state (invokeFileChanged inert "/f" deletedFile))
     = false
  /\ markedDeleted "/f" (state (setModifiedTime inert "/f" 0%Z deletedFile))
     = true.
Proof.
  assert (Hmarked : markedDeleted "/f" (state deletedFile) = true)
    by reflexivity.
  destruct (setModifiedTime_keeps_deleted_mark inert "/f" 0%Z deletedFile
              (fun _ _ => eq_refl) Hmarked)
    as [[_ Hchanged] [_ Htouched]].
  split; [exact Hmarked|]. split; [exact Hchanged | exact Htouched].
Defined.

(** Two writes to the deleted [/f]: "Created", then "Changed". *)
Lemma write_fires_changed_or_created_witness :
  markedDeleted "/f" (state deletedFile) = true
  /\ trace (writeFile inert "/f" "x" deletedFile)
     = trace deletedFile ++ [FileWatcherCall 0 "/f" Created]
  /\ trace (writeFile inert "/f" "y" (writeFile inert "/f" "x" deletedFile))
     = trace (writeFile inert "/f" "x" deletedFile)
       ++ [FileWatcherCall 0 "/f" Changed].
Proof.
  assert (Hmarked : markedDeleted "/f" (state deletedFile) = true)
    by reflexivity.
  destruct (write_fires_changed_or_created inert "/f" "x" deletedFile
              (fun _ _ => eq_refl))
    as (_ & _ & Hcreated).
  destruct (Hcreated Hmarked) as (Hfirst & _ & Hnext).
  split; [exact Hmarked|]. split.
  - etransitivity; [exact Hfirst | reflexivity].
  - etransitivity; [exact (Hnext "y") | reflexivity].
Defined.

(** Two delete notifications for the watched [/f]: one "Deleted" call. *)
Lemma delete_notification_idempotent_witness :
  markedDeleted "/f" (state (mkWorld (watchFile "/f" 0 fresh).1 [])) = false
  /\ trace (invokeFileDeleted inert "/f"
              (mkWorld (watchFile "/f" 0 fresh).1 []))
     = [FileWatcherCall 0 "/f" Deleted]
  /\ invokeFileDeleted inert "/f"
       (invokeFileDeleted inert "/f" (mkWorld (watchFile "/f" 0 fresh).1 []))
     = invokeFileDeleted inert "/f" (mkWorld (watchFile "/f" 0 fresh).1 []).
Proof.
  destruct (delete_notification_idempotent inert "/f"
              (mkWorld (watchFile "/f" 0 fresh).1 []))
    as [Hfirst Hagain].
  split; [reflexivity|]. split; [|exact Hagain].
  destruct (Hfirst eq_refl) as (_ & Htrace & _).
  etransitivity; [exact Htrace | reflexivity].
Defined.

(** A notification pass whose first callback registers a new watcher and
    closes another one still calls the two callbacks it started with; the
    next pass sees the changed registry. *)
Example snapshot_under_meddling :
  let w := invokeFileWatchers meddling "/f" Changed (mkWorld watchedByTwo []) in
  trace w = [FileWatcherCall 0 "/f" Changed; FileWatcherCall 1 "/f" Changed]
  /\ registered FileWatchers "/f" (state w) = [0; 2]
  /\ trace (invokeFileWatchers meddling "/f" Changed (mkWorld (state w) []))
     = [FileWatcherCall 0 "/f" Changed; FileWatcherCall 2 "/f" Changed].
Proof. vm_compute. repeat split. Qed.

End ScenarioFacts.

(** ** Deferred task queue: invariants of every run *)
Module TimersFacts.
Import Timers.

Lemma queuedTimeouts_app q q' :
  queuedTimeouts (q ++ q') = queuedTimeouts q ++ queuedTimeouts q'.
Proof. apply omap_app. Qed.

Lemma queuedTimeouts_clear timeoutId q :
  queuedTimeouts
    (List.filter (fun i => negb (isTimeout timeoutId i)) q)
  = filter (fun t => t <> timeoutId) (queuedTimeouts q).
Proof.
  induction q as [|[t cb|k] q IH]; cbn; [reflexivity| |exact IH].
  unfold queuedTimeouts in *.
  destruct (Nat.eqb_spec t timeoutId) as [->|Hne]; cbn.
  - rewrite IH. unfold filter at 2. cbn.
    now destruct (decide (timeoutId <> timeoutId)).
  - rewrite IH. unfold filter at 2. cbn.
    now destruct (decide (t <> timeoutId)).
Qed.

Lemma unfired_checkQueued waiter m :
  unfired (checkQueued waiter m) = unfired m.
Proof.
  unfold checkQueued, unfired. destruct (0 <? _); cbn; [|reflexivity].
  rewrite queuedTimeouts_app. cbn. apply app_nil_r.
Qed.

Lemma timeoutCallbacks_checkQueued waiter m :
  timeoutCallbacks (checkQueued waiter m) = timeoutCallbacks m.
Proof. unfold checkQueued. now destruct (0 <? _). Qed.

Lemma nextTimeoutId_checkQueued waiter m :
  nextTimeoutId (checkQueued waiter m) = nextTimeoutId m.
Proof. unfold checkQueued. now destruct (0 <? _). Qed.

Lemma running_checkQueued waiter m :
  running (checkQueued waiter m) = running m.
Proof. unfold checkQueued. now destruct (0 <? _). Qed.

Lemma history_checkQueued waiter m :
  history (checkQueued waiter m)
  = history m
    ++ (if 0 <? size (timeoutCallbacks m) then [] else [Drained waiter]).
Proof.
  unfold checkQueued. destruct (0 <? _); cbn; [|reflexivity].
  now rewrite app_nil_r.
Qed.

Lemma consistent_boot main : consistent (boot main).
Proof.
  split; cbn; try (intros t Ht; first [set_solver | lia | discriminate]).
  constructor.
Qed.

(** Steps that leave the queue of tasks, the pending set and the running
    task alone, and only add to the history. *)
Lemma consistent_mono m m' :
  unfired m' = unfired m ->
  timeoutCallbacks m' = timeoutCallbacks m ->
  nextTimeoutId m' = nextTimeoutId m ->
  runningId m' = runningId m ->
  (forall e, e ∈ history m -> e ∈ history m') ->
  consistent m -> consistent m'.
Proof.
  intros Hq Hp Hn Hr Hh [].
  split; rewrite ?Hq, ?Hp, ?Hn, ?Hr; try assumption; intros t Ht.
  - destruct (running_pending0 t Ht); auto.
  - destruct (pending_accounted0 t Ht) as [?|[?|?]]; auto.
  - destruct (allocated_accounted0 t Ht) as [?|[?|?]]; auto.
Qed.

Lemma consistent_checkQueued waiter m :
  consistent m -> consistent (checkQueued waiter m).
Proof.
  apply consistent_mono.
  - apply unfired_checkQueued.
  - apply timeoutCallbacks_checkQueued.
  - apply nextTimeoutId_checkQueued.
  - unfold runningId. now rewrite running_checkQueued.
  - intros e He. rewrite history_checkQueued. set_solver.
Qed.

Lemma consistent_setTimeout callback m :
  consistent m -> consistent (setTimeout callback m).
Proof.
  intros [].
  split; unfold unfired, runningId in *; cbn;
    rewrite ?queuedTimeouts_app; cbn.
  - apply NoDup_app. split; [assumption|]. split; [|apply NoDup_singleton].
    intros t Ht Ht'. apply list_elem_of_singleton in Ht' as ->.
    apply unfired_allocated0 in Ht. lia.
  - intros t [Ht|Ht%list_elem_of_singleton]%elem_of_app; set_solver.
  - intros t [Ht%unfired_allocated0|Ht%list_elem_of_singleton]%elem_of_app;
      lia.
  - intros t Ht [Hq|Hq%list_elem_of_singleton]%elem_of_app.
    + now apply (running_not_unfired0 t).
    + apply running_allocated0 in Ht. lia.
  - intros t Ht%running_allocated0. lia.
  - intros t [Ht|Ht]%running_pending0; [left; set_solver | now right].
  - intros t [Ht%elem_of_singleton|Ht]%elem_of_union.
    + left. set_solver.
    + destruct (pending_accounted0 t Ht) as [?|[?|?]]; set_solver.
  - intros t Ht. destruct (decide (t = nextTimeoutId m)) as [->|Hne].
    + left. set_solver.
    + destruct (allocated_accounted0 t ltac:(lia)) as [?|[?|?]];
        set_solver.
Qed.

Lemma consistent_clearTimeout timeoutId m :
  consistent m -> consistent (clearTimeout timeoutId m).
Proof.
  intros [].
  split; unfold unfired, runningId in *; cbn;
    rewrite ?queuedTimeouts_clear.
  - now apply NoDup_filter.
  - intros t [Hne Ht]%list_elem_of_filter. set_solver.
  - intros t [Hne Ht]%list_elem_of_filter. auto.
  - intros t Hr [Hne Ht]%list_elem_of_filter.
    now apply (running_not_unfired0 t).
  - assumption.
  - intros t Hr. destruct (decide (t = timeoutId)) as [->|Hne].
    + right. set_solver.
    + destruct (running_pending0 t Hr); set_solver.
  - intros t [Ht Hne]%elem_of_difference.
    destruct (pending_accounted0 t Ht) as [?|[?|?]];
      [left; apply list_elem_of_filter; set_solver | auto | set_solver].
  - intros t Ht. destruct (decide (t = timeoutId)) as [->|Hne].
    + right; right. set_solver.
    + destruct (allocated_accounted0 t Ht) as [?|[?|?]];
        [left; apply list_elem_of_filter; set_solver | set_solver
        | set_solver].
Qed.

Lemma consistent_continue who body rest m :
  running m = Some (mkFrame who body) ->
  consistent m -> consistent (withRunning (Some (mkFrame who rest)) m).
Proof.
  intros Hrun. apply consistent_mono; try reflexivity; [|auto].
  unfold runningId. now rewrite Hrun.
Qed.

Lemma consistent_waitForQueued m :
  consistent m -> consistent (waitForQueued m).
Proof.
  intros Hm. apply consistent_checkQueued.
  revert Hm. apply consistent_mono; try reflexivity. auto.
Qed.

Lemma consistent_throw who body m :
  running m = Some (mkFrame who body) ->
  consistent m ->
  consistent (match who with
              | Some timeoutId =>
                  record (Threw timeoutId) (withRunning None m)
              | None => withRunning None m
              end).
Proof.
  intros Hrun [].
  assert (Hwho : runningId m = who) by (unfold runningId; now rewrite Hrun).
  destruct who as [t0|];
    (split; unfold unfired, runningId in *; cbn;
     [assumption | assumption | assumption | discriminate | discriminate
     | discriminate | intros t Ht | intros t Ht]).
  - destruct (pending_accounted0 t Ht) as [?|[?|?]];
      [auto | right; right | set_solver].
    replace t with t0 by congruence. set_solver.
  - destruct (allocated_accounted0 t Ht) as [?|[?|?]]; set_solver.
  - destruct (pending_accounted0 t Ht) as [?|[?|?]]; [auto| |auto].
    congruence.
  - auto.
Qed.

Lemma consistent_finish who m :
  running m = Some (mkFrame who []) ->
  consistent m -> consistent (finish who m).
Proof.
  intros Hrun [].
  assert (Hwho : runningId m = who) by (unfold runningId; now rewrite Hrun).
  destruct who as [t0|];
    (split; unfold unfired, runningId in *; cbn;
     [assumption | intros t Ht | assumption | discriminate | discriminate
     | discriminate | intros t Ht | assumption]).
  - apply elem_of_difference. split; [auto|].
    intros ->%elem_of_singleton. now apply (running_not_unfired0 t0).
  - apply elem_of_difference in Ht as [Ht Hne].
    destruct (pending_accounted0 t Ht) as [?|[?|?]]; [auto| |auto].
    set_solver.
  - auto.
  - destruct (pending_accounted0 t Ht) as [?|[?|?]]; [auto| |auto].
    congruence.
Qed.

Lemma consistent_dequeue m :
  running m = None -> consistent m -> consistent (dequeue m).
Proof.
  intros Hrun Hm. unfold dequeue.
  destruct (immediateQueue m) as [|[t0 callback|waiter] q] eqn:Hqueue;
    [assumption | |].
  - destruct Hm.
    assert (Hnone : runningId m = None)
      by (unfold runningId; now rewrite Hrun).
    unfold unfired in *. rewrite Hqueue in *. cbn in *.
    apply NoDup_cons in unfired_nodup0 as [Hfresh Hnodup].
    split; unfold unfired, runningId; cbn.
    + assumption.
    + intros t Ht. apply unfired_pending0. set_solver.
    + intros t Ht. apply unfired_allocated0. set_solver.
    + now intros t [= <-].
    + intros t [= <-]. apply unfired_allocated0. set_solver.
    + intros t [= <-]. left. apply unfired_pending0. set_solver.
    + intros t Ht. destruct (pending_accounted0 t Ht) as [Hq|[?|?]].
      * apply elem_of_cons in Hq as [->|?]; auto.
      * congruence.
      * set_solver.
    + intros t Ht. destruct (allocated_accounted0 t Ht) as [Hq|[?|?]].
      * apply elem_of_cons in Hq as [->|?]; [right; left|auto]. set_solver.
      * set_solver.
      * set_solver.
  - apply consistent_checkQueued. revert Hm.
    apply consistent_mono; unfold unfired, runningId; cbn;
      rewrite ?Hqueue, ?Hrun; auto.
Qed.

Lemma consistent_step m : consistent m -> consistent (step m).
Proof.
  intros Hm. unfold step.
  destruct (running m) as [[who [|a rest]]|] eqn:Hrun.
  - now apply consistent_finish.
  - pose proof (consistent_continue who (a :: rest) rest m Hrun Hm).
    destruct a; cbn [perform].
    + now apply consistent_setTimeout.
    + now apply consistent_clearTimeout.
    + now apply consistent_waitForQueued.
    + now apply (consistent_throw who (Throw :: rest)).
  - now apply consistent_dequeue.
Qed.

Lemma consistent_run main n : consistent (run n (boot main)).
Proof.
  induction n as [|n IH]; [apply consistent_boot|].
  cbn. now apply consistent_step.
Qed.

(** The only steps that add [Drained] to the history are those that end
    with the loop condition of [waitForQueued] found false. *)
Lemma drained_step m waiter :
  Drained waiter ∈ history (step m) ->
  Drained waiter ∉ history m ->
  size (timeoutCallbacks (step m)) = 0.
Proof.
  intros Hin Hnew.
  assert (Hother : forall e,
    e <> Drained waiter -> Drained waiter ∉ history m ++ [e]).
  { intros e He [?|Hlast%list_elem_of_singleton]%elem_of_app;
      [contradiction | congruence]. }
  assert (Hcheck : forall m0 w,
    history m0 = history m ->
    Drained waiter ∈ history (checkQueued w m0) ->
    size (timeoutCallbacks (checkQueued w m0)) = 0).
  { intros m0 w Hsame Hdrained.
    rewrite history_checkQueued, Hsame in Hdrained.
    rewrite timeoutCallbacks_checkQueued.
    destruct (Nat.ltb_spec 0 (size (timeoutCallbacks m0))); [|lia].
    rewrite app_nil_r in Hdrained. contradiction. }
  unfold step in *.
  destruct (running m) as [[who [|a rest]]|] eqn:Hrun.
  - destruct who; cbn in Hin; contradiction.
  - destruct a; cbn [perform] in *.
    + cbn in Hin. contradiction.
    + cbn in Hin. now apply Hother in Hin.
    + unfold waitForQueued in *. now apply Hcheck.
    + destruct who; cbn in Hin; [now apply Hother in Hin | contradiction].
  - unfold dequeue in *.
    destruct (immediateQueue m) as [|[t0 callback|w] q] eqn:Hqueue.
    + contradiction.
    + cbn in Hin. now apply Hother in Hin.
    + now apply Hcheck.
Qed.

(** C7: in every run, the step at which a [waitForQueued] call returns
    leaves the pending set empty; no scheduled task is then waiting in the
    queue, and every task scheduled so far, directly or by another task,
    has fired or has been cancelled. *)
Theorem waitForQueued_returns_only_when_drained main n waiter :
  let before := run n (boot main) in
  let after := step before in
  Drained waiter ∈ history after ->
  Drained waiter ∉ history before ->
  timeoutCallbacks after = ∅
  /\ unfired after = []
  /\ forall t, t < nextTimeoutId after ->
       Fired t ∈ history after \/ Cleared t ∈ history after.
Proof.
  cbv zeta. intros Hin Hnew.
  pose proof (drained_step _ _ Hin Hnew) as Hsize.
  apply size_empty_iff in Hsize. fold_leibniz.
  destruct (consistent_step _ (consistent_run main n)).
  assert (Hnone : unfired (step (run n (boot main))) = []).
  { apply elem_of_nil_inv. intros t Ht.
    apply unfired_pending0 in Ht. rewrite Hsize in Ht.
    now apply elem_of_empty in Ht. }
  split; [exact Hsize|]. split; [exact Hnone|].
  intros t Ht. destruct (allocated_accounted0 t Ht) as [Hq|?]; [|assumption].
  rewrite Hnone in Hq. now apply elem_of_nil in Hq.
Qed.

(** C3 (amended): at every point of every run, [setTimeout] adds the new
    task to the pending set; a task that has not begun is a member, and so
    is the task being executed unless it has cancelled itself; the task is
    removed when its callback has returned; every member is a task that
    has not begun, the task being executed, or a task whose callback
    threw.  When no callback has thrown, the size of the set is the number
    of tasks that have not begun, plus one while the executing task is a
    member. *)
Theorem pending_set_holds_unfinished_tasks main n :
  let m := run n (boot main) in
  (forall callback,
     nextTimeoutId m ∈ timeoutCallbacks (setTimeout callback m)
     /\ unfired (setTimeout callback m) = unfired m ++ [nextTimeoutId m])
  /\ (forall t, t ∈ unfired m -> t ∈ timeoutCallbacks m)
  /\ (forall t, runningId m = Some t ->
        t ∈ timeoutCallbacks m \/ Cleared t ∈ history m)
  /\ (forall t, running m = Some (mkFrame (Some t) []) ->
        t ∉ timeoutCallbacks (step m))
  /\ (forall t, t ∈ timeoutCallbacks m ->
        t ∈ unfired m \/ runningId m = Some t \/ Threw t ∈ history m)
  /\ ((forall t, Threw t ∉ history m) ->
      size (timeoutCallbacks m)
      = length (unfired m)
        + match runningId m with
          | Some t => if decide (t ∈ timeoutCallbacks m) then 1 else 0
          | None => 0
          end).
Proof.
  cbv zeta. destruct (consistent_run main n).
  set (m := run n (boot main)) in *.
  split.
  { intros callback. split; [cbn; set_solver|].
    unfold unfired. cbn. now rewrite queuedTimeouts_app. }
  split; [assumption|]. split; [assumption|]. split.
  { intros t Hrun. unfold step. rewrite Hrun. cbn.
    intros [_ Hout]%elem_of_difference. apply Hout.
    now apply elem_of_singleton. }
  split; [assumption|].
  intros Hquiet.
  set (current := match runningId m with
                  | Some t =>
                      if decide (t ∈ timeoutCallbacks m) then {[t]} else ∅
                  | None => ∅
                  end : gset nat).
  assert (Hsplit : timeoutCallbacks m = list_to_set (unfired m) ∪ current).
  { apply set_eq. intros t.
    rewrite elem_of_union, elem_of_list_to_set. split.
    - intros Ht. destruct (pending_accounted0 t Ht) as [?|[Hr|?]].
      + now left.
      + right. subst current. rewrite Hr.
        destruct (decide (t ∈ timeoutCallbacks m)); set_solver.
      + now destruct (Hquiet t).
    - intros [?|Ht]; [auto|].
      subst current. destruct (runningId m) as [t0|]; [|set_solver].
      destruct (decide (t0 ∈ timeoutCallbacks m)); set_solver. }
  assert (Hdisjoint : list_to_set (unfired m) ## current).
  { intros t Hq%elem_of_list_to_set Hc. subst current.
    destruct (runningId m) as [t0|] eqn:Hr; [|set_solver].
    destruct (decide (t0 ∈ timeoutCallbacks m)); [|set_solver].
    apply elem_of_singleton in Hc as ->.
    now apply (running_not_unfired0 t0). }
  rewrite Hsplit at 1. rewrite size_union by exact Hdisjoint.
  rewrite size_list_to_set by assumption. f_equal.
  subst current. destruct (runningId m) as [t0|]; [|apply size_empty].
  destruct (decide (t0 ∈ timeoutCallbacks m));
    [apply size_singleton | apply size_empty].
Qed.

(** The chained scenario: the waiting call returns at step 14, after T1,
    T2 and T3 have fired in this order, and not before. *)
Example chained_timeline :
  history (run 14 (boot chained)) = [Fired 0; Fired 1; Fired 2; Drained 0]
  /\ history (run 13 (boot chained)) = [Fired 0; Fired 1; Fired 2]
  /\ size (timeoutCallbacks (run 12 (boot chained))) = 1
  /\ size (timeoutCallbacks (run 13 (boot chained))) = 0.
Proof. vm_compute. repeat split. Qed.

(** In the chained scenario the waiting call returns at the fourteenth
    step, with nothing pending and nothing queued. *)
Lemma waitForQueued_returns_only_when_drained_witness :
  Drained 0 ∈ history (step (run 13 (boot chained)))
  /\ (Drained 0 ∉ history (run 13 (boot chained)))
  /\ timeoutCallbacks (step (run 13 (boot chained))) = ∅
  /\ unfired (step (run 13 (boot chained))) = [].
Proof.
  assert (Hin : Drained 0 ∈ history (step (run 13 (boot chained)))).
  { replace (history (step (run 13 (boot chained))))
      with [Fired 0; Fired 1; Fired 2; Drained 0] by reflexivity.
    repeat constructor. }
  assert (Hnew : Drained 0 ∉ history (run 13 (boot chained))).
  { replace (history (run 13 (boot chained)))
      with [Fired 0; Fired 1; Fired 2] by reflexivity.
    intros Hold.
    repeat (apply elem_of_cons in Hold as [Hold|Hold]; [discriminate|]).
    now apply elem_of_nil in Hold. }
  destruct (waitForQueued_returns_only_when_drained chained 13 0 Hin Hnew)
    as (Hempty & Hnone & _).
  split; [exact Hin|]. split; [exact Hnew|].
  split; [exact Hempty | exact Hnone].
Defined.

(** C3, as stated, fails: while the callback of task 0 is being executed
    (it has just scheduled task 1), task 0 is still in the pending set,
    whose size is 2 with one task that has not begun; and a call of
    [waitForQueued] made by the only task does not return, it queues a
    resolver. *)
Lemma executing_task_is_pending_counterexample :
  runningId (run 4 (boot nested)) = Some 0
  /\ unfired (run 4 (boot nested)) = [1]
  /\ size (timeoutCallbacks (run 4 (boot nested))) = 2
  /\ 0 ∈ timeoutCallbacks (run 4 (boot nested))
  /\ unfired (run 4 (boot selfWaiting)) = []
  /\ immediateQueue (run 4 (boot selfWaiting)) = [Resolver 0]
  /\ history (run 4 (boot selfWaiting)) = [Fired 0].
Proof. vm_compute. repeat split. Qed.

(** A task whose callback throws is never removed from the pending set:
    the deletion is the statement after the call of the callback. *)
Example thrown_task_stays_pending :
  history (run 5 (boot throwing)) = [Fired 0; Threw 0]
  /\ idle (run 5 (boot throwing)) = true
  /\ 0 ∈ timeoutCallbacks (run 5 (boot throwing)).
Proof. vm_compute. repeat split. Qed.

End TimersFacts.

(** ** Host watcher adapter *)
Module AdapterFacts.
Import Adapter.

Lemma getProperty_defined v name :
  nullish v = false -> exists x, getProperty v name = Returns x.
Proof. destruct v; cbn; intros H; try discriminate; eauto. Qed.

Lemma truthy_not_nullish v : truthy v = true -> nullish v = false.
Proof. now destruct v. Qed.

(** C9, as stated, fails: on a handle that has no [watchFileSystem]
    property the read of [watchFileSystem.watcher] throws. *)
Lemma getWatcher_without_watchFileSystem_counterexample :
  getWatcher (Object [("options", Object [])]) = TypeError.
Proof. reflexivity. Qed.

(** C9 (amended): on a handle that carries a [watchFileSystem] object,
    [getWatcher] does not throw; it returns [watchFileSystem.watcher] when
    that is present (truthy), otherwise [watchFileSystem.wfs.watcher] when
    [wfs] is present, and otherwise the absent [wfs] value itself. *)
Theorem getWatcher_probes_two_shapes compiler watchFileSystem :
  getProperty compiler "watchFileSystem" = Returns watchFileSystem ->
  nullish watchFileSystem = false ->
  exists watcher wfs inner,
    getProperty watchFileSystem "watcher" = Returns watcher
    /\ getProperty watchFileSystem "wfs" = Returns wfs
    /\ (truthy wfs = true -> getProperty wfs "watcher" = Returns inner)
    /\ getWatcher compiler
       = Returns (if truthy watcher then watcher
                  else if truthy wfs then inner else wfs).
Proof.
  intros Hhandle Hobject.
  destruct (getProperty_defined watchFileSystem "watcher" Hobject)
    as [watcher Hwatcher].
  destruct (getProperty_defined watchFileSystem "wfs" Hobject)
    as [wfs Hwfs].
  assert (Hinner : exists inner,
    truthy wfs = true -> getProperty wfs "watcher" = Returns inner).
  { destruct (truthy wfs) eqn:Hpresent.
    - destruct (getProperty_defined wfs "watcher"
                  (truthy_not_nullish wfs Hpresent)) as [inner Hinner].
      now exists inner.
    - now exists Undefined. }
  destruct Hinner as [inner Hinner].
  exists watcher, wfs, inner.
  split; [exact Hwatcher|]. split; [exact Hwfs|]. split; [exact Hinner|].
  unfold getWatcher. rewrite Hhandle. cbn [bind].
  rewrite Hwatcher. cbn [bind]. rewrite Hwfs. cbn [bind].
  destruct (truthy watcher); [reflexivity|].
  destruct (truthy wfs); [now apply Hinner | reflexivity].
Qed.

(** A handle of the second shape: the watcher is found under [wfs]. *)
Lemma getWatcher_probes_two_shapes_witness :
  getProperty
    (Object [("watchFileSystem",
              Object [("wfs", Object [("watcher", Str "chokidar")])])])
    "watchFileSystem"
  = Returns (Object [("wfs", Object [("watcher", Str "chokidar")])])
  /\ getWatcher
       (Object [("watchFileSystem",
                 Object [("wfs", Object [("watcher", Str "chokidar")])])])
     = Returns (Str "chokidar").
Proof.
  split; [reflexivity|].
  destruct (getWatcher_probes_two_shapes
              (Object [("watchFileSystem",
                        Object [("wfs",
                                 Object [("watcher", Str "chokidar")])])])
              (Object [("wfs", Object [("watcher", Str "chokidar")])])
              eq_refl eq_refl)
    as (watcher & wfs & inner & Hwatcher & Hwfs & Hinner & Hresult).
  injection Hwatcher as <-. injection Hwfs as <-.
  specialize (Hinner eq_refl). injection Hinner as <-.
  exact Hresult.
Defined.

Example getWatcher_direct :
  getWatcher
    (Object [("watchFileSystem", Object [("watcher", Str "watchpack")])])
  = Returns (Str "watchpack").
Proof. reflexivity. Qed.

Example getWatcher_none :
  getWatcher (Object [("watchFileSystem", Object [])]) = Returns Undefined.
Proof. reflexivity. Qed.

End AdapterFacts.

(** ** Registry: further properties of [createWatcher] and [close] *)
Section RegistryCoverage.

Context `{PFS : PassiveFileSystem}.

Lemma watchersOf_withWatchers_other r r' m s :
  r' <> r -> watchersOf r' (withWatchers r m s) = watchersOf r' s.
Proof. destruct r, r'; intros Hne; try reflexivity; congruence. Qed.

Lemma withWatchers_same r s : withWatchers r (watchersOf r s) s = s.
Proof. destruct r, s; reflexivity. Qed.

Lemma withWatchers_twice r m m' s :
  withWatchers r m' (withWatchers r m s) = withWatchers r m' s.
Proof. destruct r; reflexivity. Qed.

Lemma lookup_createWatcher_other r path callback s path' :
  path' <> path ->
  watchersOf r (createWatcher r path callback s).1 !! path'
  = watchersOf r s !! path'.
Proof.
  intros Hne. unfold createWatcher. cbn [fst].
  rewrite watchersOf_withWatchers. now apply lookup_insert_ne.
Qed.

Lemma lookup_close_other r path callback s path' :
  path' <> path ->
  watchersOf r (close (mkFileWatcher r path callback) s) !! path'
  = watchersOf r s !! path'.
Proof.
  intros Hne. unfold close.
  cbn [watchersMap watchedPath watchedCallback]. cbv zeta.
  match goal with |- context [0 <? ?n] => destruct (0 <? n) end;
    rewrite watchersOf_withWatchers.
  - now apply lookup_insert_ne.
  - now apply lookup_delete_ne.
Qed.

Lemma watchersOf_createWatcher_other r r' path callback s :
  r' <> r ->
  watchersOf r' (createWatcher r path callback s).1 = watchersOf r' s.
Proof. intros Hne. now apply watchersOf_withWatchers_other. Qed.

Lemma watchersOf_close_other r r' path callback s :
  r' <> r ->
  watchersOf r' (close (mkFileWatcher r path callback) s) = watchersOf r' s.
Proof.
  intros Hne. unfold close.
  cbn [watchersMap watchedPath watchedCallback]. cbv zeta.
  match goal with |- context [0 <? ?n] => destruct (0 <? n) end;
    now apply watchersOf_withWatchers_other.
Qed.

(** X1: no registry ever holds an empty callback list: a state without
    empty entries keeps none after a registration and after the closing of
    any handle (the entry that [close] empties is deleted). *)
Theorem registry_keeps_no_empty_entries s :
  noEmptyEntries s ->
  (forall r path callback,
     noEmptyEntries (createWatcher r path callback s).1)
  /\ (forall h, noEmptyEntries (close h s)).
Proof.
  intros Hs. split.
  - intros r path callback r' path'.
    destruct (decide (r' = r)) as [->|Hr].
    + unfold createWatcher. cbn [fst]. rewrite watchersOf_withWatchers.
      destruct (decide (path' = path)) as [->|Hpath].
      * rewrite lookup_insert_eq. intros [= Hnil].
        apply app_eq_nil in Hnil as [_ Hnil]. discriminate.
      * rewrite lookup_insert_ne by congruence. apply Hs.
    + rewrite watchersOf_createWatcher_other by exact Hr. apply Hs.
  - intros [r path callback] r' path'.
    destruct (decide (r' = r)) as [->|Hr].
    + destruct (decide (path' = path)) as [->|Hpath].
      * rewrite lookup_close. cbv zeta.
        destruct (filter _ _); cbn; discriminate.
      * rewrite lookup_close_other by exact Hpath. apply Hs.
    + rewrite watchersOf_close_other by exact Hr. apply Hs.
Qed.

Lemma filter_without (callback : Callback) (l : list Callback) :
  callback ∉ l -> filter (fun watcher => watcher <> callback) l = l.
Proof.
  induction l as [|x l IH]; intros Hout; [reflexivity|].
  apply not_elem_of_cons in Hout as [Hne Hout].
  rewrite filter_cons_True by congruence. now rewrite IH.
Qed.

Lemma not_elem_of_filter_same (callback : Callback) (l : list Callback) :
  callback ∉ filter (fun watcher => watcher <> callback) l.
Proof. intros [Hne _]%list_elem_of_filter. now apply Hne. Qed.

Lemma close_unfold r path callback s :
  let kept := filter (fun watcher => watcher <> callback)
                (registered r path s) in
  close (mkFileWatcher r path callback) s
  = withWatchers r
      (match kept with
       | [] => delete path (watchersOf r s)
       | _ :: _ => <[path := kept]> (watchersOf r s)
       end) s.
Proof.
  cbv zeta. unfold close, registered.
  cbn [watchersMap watchedPath watchedCallback].
  now destruct (filter _ _).
Qed.

(** X2: closing a handle again does nothing: [close] applied to its own
    result returns the same state, for every handle and state. *)
Theorem close_is_idempotent h s : close h (close h s) = close h s.
Proof.
  destruct h as [r path callback].
  rewrite (close_unfold r path callback (close _ s)). cbv zeta.
  rewrite registered_close.
  rewrite (filter_without callback (filter _ _))
    by apply not_elem_of_filter_same.
  rewrite (close_unfold r path callback s). cbv zeta.
  rewrite withWatchers_twice, watchersOf_withWatchers.
  destruct (filter _ _) as [|x kept].
  - now rewrite delete_delete_eq.
  - now rewrite insert_insert_eq.
Qed.

(** X3: on a path whose entry is not an empty list, for a callback that is
    not registered there, closing a handle of that callback changes
    nothing, and registering the callback and then closing the returned
    handle gives back the state from before the registration. *)
Theorem register_then_close_restores r path callback s :
  callback ∉ registered r path s ->
  watchersOf r s !! path <> Some [] ->
  close (mkFileWatcher r path callback) s = s
  /\ close (createWatcher r path callback s).2
       (createWatcher r path callback s).1 = s.
Proof.
  intros Hout Hentry.
  assert (Hregistered :
    match registered r path s with
    | [] => watchersOf r s !! path = None
    | l => watchersOf r s !! path = Some l
    end).
  { unfold registered in *. destruct (watchersOf r s !! path) as [[|x l]|];
      cbn; congruence. }
  split.
  - rewrite close_unfold. cbv zeta. rewrite filter_without by exact Hout.
    destruct (registered r path s) as [|x l].
    + rewrite delete_id by exact Hregistered. apply withWatchers_same.
    + rewrite insert_id by exact Hregistered. apply withWatchers_same.
  - change (createWatcher r path callback s).2
      with (mkFileWatcher r path callback).
    rewrite close_unfold. cbv zeta.
    rewrite registered_createWatcher, filter_drops_same.
    rewrite filter_without by exact Hout.
    unfold createWatcher. cbn [fst].
    rewrite withWatchers_twice, watchersOf_withWatchers.
    fold (registered r path s).
    destruct (registered r path s) as [|x l].
    + rewrite delete_insert_id by exact Hregistered. apply withWatchers_same.
    + rewrite insert_insert_eq, insert_id by exact Hregistered.
      apply withWatchers_same.
Qed.

(** X4: a registration or a closing touches one path of one registry: the
    callbacks registered under any other path or in any other registry, the
    deleted marks and the store stay as they were. *)
Theorem registry_updates_are_local r path callback s r' path' :
  r' <> r \/ path' <> path ->
  registered r' path' (createWatcher r path callback s).1
  = registered r' path' s
  /\ registered r' path' (close (mkFileWatcher r path callback) s)
     = registered r' path' s
  /\ deletedFiles (createWatcher r path callback s).1 = deletedFiles s
  /\ deletedFiles (close (mkFileWatcher r path callback) s) = deletedFiles s
  /\ fileSystem (createWatcher r path callback s).1 = fileSystem s
  /\ fileSystem (close (mkFileWatcher r path callback) s) = fileSystem s.
Proof.
  intros Hother. unfold registered.
  assert (Hclose : forall m,
    deletedFiles (withWatchers r m s) = deletedFiles s
    /\ fileSystem (withWatchers r m s) = fileSystem s)
    by (intros m; now destruct r).
  repeat split.
  - destruct (decide (r' = r)) as [->|Hr].
    + destruct Hother as [?|Hpath]; [congruence|].
      now rewrite lookup_createWatcher_other.
    + now rewrite watchersOf_createWatcher_other.
  - destruct (decide (r' = r)) as [->|Hr].
    + destruct Hother as [?|Hpath]; [congruence|].
      now rewrite lookup_close_other.
    + now rewrite watchersOf_close_other.
  - apply Hclose.
  - rewrite close_unfold. apply Hclose.
  - apply Hclose.
  - rewrite close_unfold. apply Hclose.
Qed.

End RegistryCoverage.

(** ** Dispatch: further properties of the notifying operations *)
Section DispatchCoverage.

Context `{PFS : PassiveFileSystem}.
Variable effect : Invocation -> State -> State.

(** X5: a registration takes effect for the next file notification, which
    calls the new callback after the callbacks registered before it; after
    a handle is closed, in whatever state, a file notification for its path
    does not call its callback. *)
Theorem watch_and_close_take_effect path callback s event t :
  let p := normalizePath path in
  trace (invokeFileWatchers effect p event
           (mkWorld (watchFile path callback s).1 t))
  = t ++ fileCalls event p (mkWorld s t) ++ [FileWatcherCall callback p event]
  /\ forall s',
       let closed := close (watchFile path callback s).2 s' in
       (callback ∉ registered FileWatchers p closed)
       /\ (FileWatcherCall callback p event
           ∉ fileCalls event p (mkWorld closed t))
       /\ trace (invokeFileWatchers effect p event (mkWorld closed t))
          = t ++ fileCalls event p (mkWorld closed t).
Proof.
  cbv zeta. split.
  - rewrite trace_invokeFileWatchers. unfold fileCalls, watchFile. cbn [state trace].
    rewrite registered_createWatcher, map_app. reflexivity.
  - intros s'.
    change (watchFile path callback s).2
      with (mkFileWatcher FileWatchers (normalizePath path) callback).
    assert (Hout : callback ∉ registered FileWatchers (normalizePath path)
                     (close (mkFileWatcher FileWatchers (normalizePath path)
                               callback) s')).
    { rewrite registered_close. apply not_elem_of_filter_same. }
    split; [exact Hout|]. split.
    + unfold fileCalls. cbn [state].
      intros Hin. apply list_elem_of_In, in_map_iff in Hin as (cb & Hcb & Hin).
      injection Hcb as ->. now apply list_elem_of_In in Hin.
    + apply trace_invokeFileWatchers.
Qed.

(** X6: the ancestor walk of [invokeDirectoryWatchers] terminates for every
    directory string (absolute, relative or empty): after the walked
    directories the loop variable is its own [dirname], and a larger
    iteration bound never changes the outcome. *)
Theorem directory_walk_terminates directory :
  (let k := length (walked (ancestorFuel directory) directory) in
   Nat.iter k Posix.dirname directory
   = Posix.dirname (Nat.iter k Posix.dirname directory))
  /\ forall more path w,
       ancestorLoop effect (ancestorFuel directory + more) path directory w
       = ancestorLoop effect (ancestorFuel directory) path directory w.
Proof.
  split; [apply walked_ends|].
  intros more path w. apply ancestorLoop_fuel. lia.
Qed.

(** X7: with callbacks that leave the recursive registry alone, a directory
    notification for [path] calls the non-recursive watchers registered on
    the parent directory of [path], in registration order, then the
    recursive watchers of each walked directory, nearest first; no walked
    directory is its own parent. *)
Theorem directory_notification_calls path w :
  (forall i s, recursiveDirectoryWatchersMap (effect i s)
               = recursiveDirectoryWatchersMap s) ->
  let directory := Posix.dirname path in
  let ancestors := walked (ancestorFuel directory) directory in
  trace (invokeDirectoryWatchers effect path w)
  = trace w
    ++ map (fun cb => DirectoryWatcherCall cb path)
         (registered DirectoryWatchers directory (state w))
    ++ flat_map
         (fun d => map (fun cb => DirectoryWatcherCall cb path)
                     (registered RecursiveDirectoryWatchers d (state w)))
         ancestors
  /\ forall d, d ∈ ancestors -> d <> Posix.dirname d.
Proof.
  intros Hkeep. cbv zeta. split.
  - now apply trace_invokeDirectoryWatchers_walked.
  - intros d. apply walked_proper.
Qed.

Lemma allowedCall_directoryCalls path events calls :
  directoryCalls path calls -> Forall (allowedCall path events) calls.
Proof.
  intros Hcalls. eapply Forall_impl; [exact Hcalls|].
  intros i [cb ->]. reflexivity.
Qed.

Lemma allowedCall_fileCalls path event events w :
  In event events -> Forall (allowedCall path events) (fileCalls event path w).
Proof.
  intros Hin. apply Forall_forall. intros i Hi.
  apply list_elem_of_In, in_map_iff in Hi as (cb & <- & _). now split.
Qed.

(** X8: every call made by a notifying operation passes the normalized
    path, and the file events are those of the operation: "Created" or
    "Changed" for [writeFile], "Deleted" for [deleteFile], "Changed" for
    [setModifiedTime], and no file watcher call at all for
    [createDirectory]. *)
Theorem calls_carry_normalized_path path w :
  let p := normalizePath path in
  (forall data, exists calls,
     trace (writeFile effect path data w) = trace w ++ calls
     /\ Forall (allowedCall p [Created; Changed]) calls)
  /\ (exists calls,
        trace (deleteFile effect path w) = trace w ++ calls
        /\ Forall (allowedCall p [Deleted]) calls)
  /\ (forall date, exists calls,
        trace (setModifiedTime effect path date w) = trace w ++ calls
        /\ Forall (allowedCall p [Changed]) calls)
  /\ (exists calls,
        trace (createDirectory effect path w) = trace w ++ calls
        /\ Forall (allowedCall p []) calls).
Proof.
  cbv zeta.
  assert (Hdir : forall (f : Store -> Store) events, exists calls,
    trace (invokeDirectoryWatchers effect (normalizePath path)
             (onFileSystem f w)) = trace w ++ calls
    /\ Forall (allowedCall (normalizePath path) events) calls).
  { intros f events.
    destruct (trace_invokeDirectoryWatchers effect (normalizePath path)
                (onFileSystem f w)) as (calls & Htrace & Hcalls).
    exists calls. split; [exact Htrace|].
    now apply allowedCall_directoryCalls. }
  split; [|split; [|split]].
  - intros data.
    destruct (Hdir (storeWriteFile path data) [Created; Changed])
      as (calls & Htrace & Hcalls).
    unfold writeFile, invokeFileChanged.
    destruct (markedDeleted _ _); cbn [onState trace];
      rewrite trace_invokeFileWatchers, Htrace, <- app_assoc;
      eexists; (split; [reflexivity|]);
      (apply Forall_app; split; [exact Hcalls|]);
      apply allowedCall_fileCalls; cbn; auto.
  - destruct (Hdir (storeDeleteFile path) [Deleted])
      as (calls & Htrace & Hcalls).
    unfold deleteFile, invokeFileDeleted.
    destruct (markedDeleted _ _); cbn [negb onState trace].
    + exists []. split; [now rewrite app_nil_r | constructor].
    + rewrite trace_invokeFileWatchers, Htrace, <- app_assoc.
      eexists. split; [reflexivity|].
      apply Forall_app. split; [exact Hcalls|].
      apply allowedCall_fileCalls. cbn. auto.
  - intros date.
    destruct (Hdir (storeUpdateTimes path date date) [Changed])
      as (calls & Htrace & Hcalls).
    unfold setModifiedTime.
    rewrite trace_invokeFileWatchers, Htrace, <- app_assoc.
    eexists. split; [reflexivity|].
    apply Forall_app. split; [exact Hcalls|].
    apply allowedCall_fileCalls. cbn. auto.
  - apply Hdir.
Qed.

(** X9: with callbacks that leave the deleted mark of the path alone, a
    delete notification always leaves the path marked and a change
    notification always leaves it unmarked; hence a write that follows a
    delete calls the file watchers with "Created", and a delete that
    follows a write calls them with "Deleted", whatever the mark was
    before. *)
Theorem deleted_mark_lifecycle path w :
  let p := normalizePath path in
  (forall i s, markedDeleted p (effect i s) = markedDeleted p s) ->
  markedDeleted p (state (invokeFileDeleted effect path w)) = true
  /\ markedDeleted p (state (invokeFileChanged effect path w)) = false
  /\ (forall data,
        let deleted := deleteFile effect path w in
        let notified :=
          invokeDirectoryWatchers effect p
            (onFileSystem (storeWriteFile path data) deleted) in
        trace (writeFile effect path data deleted)
        = trace notified ++ fileCalls Created p notified)
  /\ (forall data,
        let written := writeFile effect path data w in
        let notified :=
          invokeDirectoryWatchers effect p
            (onFileSystem (storeDeleteFile path) written) in
        trace (deleteFile effect path written)
        = trace notified ++ fileCalls Deleted p notified).
Proof.
  cbv zeta. intros Hframe.
  assert (Hdeleted : forall w0,
    markedDeleted (normalizePath path)
      (state (invokeFileDeleted effect path w0)) = true).
  { intros w0. unfold invokeFileDeleted.
    destruct (markedDeleted (normalizePath path) (state w0)) eqn:Hmark;
      cbn [negb]; [exact Hmark|].
    apply markedDeleted_setDeleted. }
  assert (Hchanged : forall w0,
    markedDeleted (normalizePath path)
      (state (invokeFileChanged effect path w0)) = false).
  { intros w0. unfold invokeFileChanged.
    destruct (markedDeleted (normalizePath path)
                (state (invokeDirectoryWatchers effect _ w0))) eqn:Hmark.
    - apply markedDeleted_setDeleted.
    - now rewrite (invokeFileWatchers_keeps effect _ Hframe). }
  split; [apply Hdeleted|]. split; [apply Hchanged|]. split.
  - intros data. unfold writeFile at 1, invokeFileChanged.
    rewrite (invokeDirectoryWatchers_keeps effect _ Hframe).
    rewrite markedDeleted_onFileSystem.
    unfold deleteFile at 1. rewrite Hdeleted.
    cbn [onState trace]. apply trace_invokeFileWatchers.
  - intros data. unfold deleteFile at 1, invokeFileDeleted.
    rewrite markedDeleted_onFileSystem.
    unfold writeFile at 1. rewrite Hchanged.
    cbn [negb onState trace]. apply trace_invokeFileWatchers.
Qed.

Lemma watchersOf_setDeleted r path flag s :
  watchersOf r (setDeleted path flag s) = watchersOf r s.
Proof. now destruct r. Qed.

Lemma markedDeleted_setDeleted_other path path' flag s :
  path' <> path ->
  markedDeleted path' (setDeleted path flag s) = markedDeleted path' s.
Proof.
  intros Hne. unfold markedDeleted, setDeleted. cbn.
  now rewrite lookup_insert_ne by congruence.
Qed.

(** What the notifying operations keep of the state: an observation that
    the callbacks, the store operations and the marking of the path all
    leave alone. *)
Lemma operations_keep {A : Type} (observe : State -> A) path w :
  (forall i s, observe (effect i s) = observe s) ->
  (forall fs s, observe (withFileSystem fs s) = observe s) ->
  (forall flag s,
     observe (setDeleted (normalizePath path) flag s) = observe s) ->
  (forall data, observe (state (writeFile effect path data w))
                = observe (state w))
  /\ observe (state (deleteFile effect path w)) = observe (state w)
  /\ (forall date, observe (state (setModifiedTime effect path date w))
                   = observe (state w))
  /\ observe (state (createDirectory effect path w)) = observe (state w).
Proof.
  intros Heffect Hstore Hmark.
  assert (Hdir : forall f,
    observe (state (invokeDirectoryWatchers effect (normalizePath path)
                      (onFileSystem f w))) = observe (state w)).
  { intros f. rewrite (invokeDirectoryWatchers_keeps effect _ Heffect).
    apply Hstore. }
  split; [|split; [|split]].
  - intros data. unfold writeFile, invokeFileChanged.
    destruct (markedDeleted _ _); cbn [onState state];
      rewrite ?Hmark, (invokeFileWatchers_keeps effect _ Heffect);
      apply Hdir.
  - unfold deleteFile, invokeFileDeleted.
    destruct (markedDeleted _ _); cbn [negb onState state].
    + apply Hstore.
    + rewrite Hmark, (invokeFileWatchers_keeps effect _ Heffect).
      apply Hdir.
  - intros date. unfold setModifiedTime.
    rewrite (invokeFileWatchers_keeps effect _ Heffect). apply Hdir.
  - apply Hdir.
Qed.

(** X10: the notifying operations never register or close a watcher
    themselves: when no callback changes a registry, [writeFile],
    [deleteFile], [setModifiedTime] and [createDirectory] leave it as it
    was. *)
Theorem notifications_leave_registry_alone r path w :
  (forall i s, watchersOf r (effect i s) = watchersOf r s) ->
  (forall data, watchersOf r (state (writeFile effect path data w))
                = watchersOf r (state w))
  /\ watchersOf r (state (deleteFile effect path w)) = watchersOf r (state w)
  /\ (forall date, watchersOf r (state (setModifiedTime effect path date w))
                   = watchersOf r (state w))
  /\ watchersOf r (state (createDirectory effect path w))
     = watchersOf r (state w).
Proof.
  intros Hframe. apply operations_keep; [exact Hframe| |].
  - intros fs s. now destruct r.
  - intros flag s. apply watchersOf_setDeleted.
Qed.

(** X11: a notification for one path never changes the deleted mark of
    another path: when no callback changes the mark of [other], a path whose
    normalized form differs from [other], the notifying operations on that
    path leave the mark of [other] as it was. *)
Theorem notifications_leave_other_marks_alone other path w :
  other <> normalizePath path ->
  (forall i s, markedDeleted other (effect i s) = markedDeleted other s) ->
  (forall data, markedDeleted other (state (writeFile effect path data w))
                = markedDeleted other (state w))
  /\ markedDeleted other (state (deleteFile effect path w))
     = markedDeleted other (state w)
  /\ (forall date,
        markedDeleted other (state (setModifiedTime effect path date w))
        = markedDeleted other (state w))
  /\ markedDeleted other (state (createDirectory effect path w))
     = markedDeleted other (state w).
Proof.
  intros Hother Hframe. apply operations_keep; [exact Hframe| |].
  - reflexivity.
  - intros flag s. now apply markedDeleted_setDeleted_other.
Qed.

End DispatchCoverage.

(** ** Task queue: order of firing, cancellation and faults *)
Module TasksFacts.
Import Timers TimersFacts Tasks.

Lemma elem_of_firedIds t h : t ∈ firedIds h <-> Fired t ∈ h.
Proof.
  unfold firedIds. rewrite list_elem_of_omap. split.
  - intros (e & He & Hfired). destruct e; try discriminate.
    now injection Hfired as ->.
  - intros Hin. now exists (Fired t).
Qed.

Lemma firedIds_app h h' : firedIds (h ++ h') = firedIds h ++ firedIds h'.
Proof. apply omap_app. Qed.

Lemma StronglySorted_filter_lt (P : nat -> Prop) `{!forall x, Decision (P x)}
    (l : list nat) :
  StronglySorted lt l -> StronglySorted lt (filter P l).
Proof.
  induction 1 as [|x l Hsorted IH Hall]; [constructor|].
  rewrite filter_cons. destruct (decide (P x)); [|exact IH].
  constructor; [exact IH|].
  apply Forall_forall. intros y [_ Hy]%list_elem_of_filter.
  rewrite Forall_forall in Hall. now apply Hall.
Qed.

Lemma ordered_boot main : ordered (boot main).
Proof.
  split; cbn.
  - intros t Ht. now apply elem_of_empty in Ht.
  - intros t Ht. now apply elem_of_nil in Ht.
  - constructor.
  - constructor.
  - intros f u Hf. now apply elem_of_nil in Hf.
  - discriminate.
  - intros t Ht. now apply elem_of_nil in Ht.
  - intros t Ht. now apply elem_of_nil in Ht.
  - intros t Ht. now apply elem_of_nil in Ht.
Qed.

(** An event appended to the history is the only new one. *)
Lemma elem_of_snoc (e e' : Event) h :
  e ∈ h ++ [e'] <-> e ∈ h \/ e = e'.
Proof. rewrite elem_of_app, list_elem_of_singleton. tauto. Qed.

(** Steps that leave the queue of tasks, the pending set and the running
    task alone, and add nothing but [Drained] events to the history. *)
Lemma ordered_mono m m' :
  unfired m' = unfired m ->
  timeoutCallbacks m' = timeoutCallbacks m ->
  nextTimeoutId m' = nextTimeoutId m ->
  runningId m' = runningId m ->
  (history m' = history m
   \/ exists waiter, history m' = history m ++ [Drained waiter]) ->
  ordered m -> ordered m'.
Proof.
  intros Hq Hp Hn Hr Hh [].
  assert (Hold : forall e, e ∈ history m -> e ∈ history m').
  { intros e He. destruct Hh as [->|[w ->]]; [exact He|].
    apply elem_of_snoc. now left. }
  assert (Hnew : forall e, (forall w, e <> Drained w) ->
                           e ∈ history m' -> e ∈ history m).
  { intros e He Hin. destruct Hh as [Hh|[w Hh]]; rewrite Hh in Hin;
      [exact Hin|].
    apply elem_of_snoc in Hin as [?| ->]; [assumption|]. now destruct (He w). }
  assert (Hfired : firedIds (history m') = firedIds (history m)).
  { destruct Hh as [->|[w ->]]; [reflexivity|].
    rewrite firedIds_app. cbn. apply app_nil_r. }
  split; rewrite ?Hq, ?Hp, ?Hn, ?Hr, ?Hfired; try assumption.
  - intros t Ht. apply Hnew in Ht; [auto|discriminate].
  - intros f u Hf. apply Hnew in Hf; [auto|discriminate].
  - intros t Ht. auto.
  - intros t Ht. apply Hnew in Ht; [auto|discriminate].
  - intros t Ht. apply Hnew in Ht; [auto|discriminate].
  - intros t Ht. apply Hnew in Ht; [|discriminate].
    destruct (thrown_pending0 t Ht); auto.
Qed.

Lemma ordered_checkQueued waiter m :
  ordered m -> ordered (checkQueued waiter m).
Proof.
  apply ordered_mono.
  - apply unfired_checkQueued.
  - apply timeoutCallbacks_checkQueued.
  - apply nextTimeoutId_checkQueued.
  - unfold runningId. now rewrite running_checkQueued.
  - rewrite history_checkQueued.
    destruct (0 <? _); [left; apply app_nil_r | right; eauto].
Qed.

Lemma ordered_continue who body rest m :
  running m = Some (mkFrame who body) ->
  ordered m -> ordered (withRunning (Some (mkFrame who rest)) m).
Proof.
  intros Hrun. apply ordered_mono; try reflexivity; [|now left].
  unfold runningId. now rewrite Hrun.
Qed.

Lemma ordered_waitForQueued m : ordered m -> ordered (waitForQueued m).
Proof.
  intros Hm. apply ordered_checkQueued.
  revert Hm. apply ordered_mono; try reflexivity. now left.
Qed.

Lemma ordered_setTimeout callback m :
  consistent m -> ordered m -> ordered (setTimeout callback m).
Proof.
  intros [] [].
  split; unfold unfired, runningId in *; cbn;
    rewrite ?queuedTimeouts_app; cbn.
  - intros t [->%elem_of_singleton|Ht%pending_allocated0]%elem_of_union; lia.
  - intros t Ht%fired_allocated0. lia.
  - apply StronglySorted_app_2; [|assumption|repeat constructor].
    intros x y Hx ->%list_elem_of_singleton. now apply unfired_allocated0.
  - assumption.
  - intros f u Hf [Hu| ->%list_elem_of_singleton]%elem_of_app; [eauto|].
    now apply fired_allocated0.
  - assumption.
  - assumption.
  - assumption.
  - intros t Ht. destruct (thrown_pending0 t Ht); [left|now right].
    apply elem_of_union. now right.
Qed.

Lemma ordered_clearTimeout timeoutId m :
  ordered m -> ordered (clearTimeout timeoutId m).
Proof.
  intros [].
  assert (Hfired : forall t,
    Fired t ∈ history m ++ [Cleared timeoutId] -> Fired t ∈ history m).
  { intros t [?|?]%elem_of_snoc; [assumption|discriminate]. }
  assert (Hthrew : forall t,
    Threw t ∈ history m ++ [Cleared timeoutId] -> Threw t ∈ history m).
  { intros t [?|?]%elem_of_snoc; [assumption|discriminate]. }
  split; unfold unfired, runningId in *; cbn;
    rewrite ?queuedTimeouts_clear, ?firedIds_app; cbn;
    rewrite ?app_nil_r.
  - intros t [Ht _]%elem_of_difference. auto.
  - intros t Ht%Hfired. auto.
  - now apply StronglySorted_filter_lt.
  - assumption.
  - intros f u Hf%Hfired [_ Hu]%list_elem_of_filter. auto.
  - intros t Ht. apply elem_of_snoc. left. auto.
  - intros t Ht%Hthrew. apply elem_of_snoc. left. auto.
  - intros t Ht%Hthrew. auto.
  - intros t Ht%Hthrew. destruct (decide (t = timeoutId)) as [->|Hne].
    + right. apply elem_of_snoc. now right.
    + destruct (thrown_pending0 t Ht) as [Hin|Hcleared].
      * left. apply elem_of_difference. split; [exact Hin|].
        now intros ->%elem_of_singleton.
      * right. apply elem_of_snoc. now left.
Qed.

Lemma ordered_throw who body m :
  running m = Some (mkFrame who body) ->
  consistent m -> ordered m ->
  ordered (match who with
           | Some timeoutId => record (Threw timeoutId) (withRunning None m)
           | None => withRunning None m
           end).
Proof.
  intros Hrun [] [].
  assert (Hwho : runningId m = who) by (unfold runningId; now rewrite Hrun).
  destruct who as [t0|].
  - assert (Hfired : forall t,
      Fired t ∈ history m ++ [Threw t0] -> Fired t ∈ history m).
    { intros t [?|?]%elem_of_snoc; [assumption|discriminate]. }
    split; unfold unfired, runningId in *; cbn;
      rewrite ?firedIds_app; cbn; rewrite ?app_nil_r; try assumption.
    + intros t Ht%Hfired. auto.
    + intros f u Hf%Hfired. auto.
    + discriminate.
    + intros t [Ht| [= ->]]%elem_of_snoc; apply elem_of_snoc; left; auto.
    + discriminate.
    + intros t [Ht| [= ->]]%elem_of_snoc.
      * destruct (thrown_pending0 t Ht); [now left|right].
        apply elem_of_snoc. now left.
      * destruct (running_pending0 t0 Hwho); [now left|right].
        apply elem_of_snoc. now left.
  - split; unfold unfired, runningId in *; cbn; try assumption;
      discriminate.
Qed.

Lemma ordered_finish who m :
  running m = Some (mkFrame who []) ->
  ordered m -> ordered (finish who m).
Proof.
  intros Hrun [].
  assert (Hwho : runningId m = who) by (unfold runningId; now rewrite Hrun).
  destruct who as [t0|];
    (split; unfold unfired, runningId in *; cbn; try assumption;
     try discriminate).
  - intros t [Ht _]%elem_of_difference. auto.
  - intros t Ht. destruct (thrown_pending0 t Ht) as [Hin|?]; [left|now right].
    apply elem_of_difference. split; [exact Hin|].
    intros ->%elem_of_singleton. now apply (thrown_not_running0 t0).
Qed.

Lemma ordered_dequeue m :
  running m = None -> consistent m -> ordered m -> ordered (dequeue m).
Proof.
  intros Hrun Hconsistent Hm. unfold dequeue.
  destruct (immediateQueue m) as [|[t0 callback|waiter] q] eqn:Hqueue;
    [assumption | |].
  - destruct Hconsistent, Hm.
    unfold unfired in *. rewrite Hqueue in *. cbn in *.
    apply StronglySorted_cons in unfired_sorted0 as [Hhead Hsorted].
    rewrite Forall_forall in Hhead.
    assert (Hfired : forall t,
      Fired t ∈ history m ++ [Fired t0] -> Fired t ∈ history m \/ t = t0).
    { intros t [?| [= ->]]%elem_of_snoc; auto. }
    assert (Hthrew : forall t,
      Threw t ∈ history m ++ [Fired t0] -> Threw t ∈ history m).
    { intros t [?|?]%elem_of_snoc; [assumption|discriminate]. }
    split; unfold unfired, runningId; cbn; rewrite ?firedIds_app; cbn.
    + assumption.
    + intros t [Ht| ->]%Hfired; [auto|].
      apply unfired_allocated0. now left.
    + assumption.
    + apply StronglySorted_app_2; [|assumption|repeat constructor].
      intros f u Hf%elem_of_firedIds ->%list_elem_of_singleton.
      apply fired_before_unfired0; [exact Hf | now left].
    + intros f u [Hf| ->]%Hfired Hu.
      * apply fired_before_unfired0; [exact Hf | now right].
      * now apply Hhead.
    + intros t [= <-]. apply elem_of_snoc. now right.
    + intros t Ht%Hthrew. apply elem_of_snoc. left. auto.
    + intros t Ht%Hthrew [= ->].
      apply thrown_fired0 in Ht.
      pose proof (fired_before_unfired0 t t Ht ltac:(now left)). lia.
    + intros t Ht%Hthrew.
      destruct (thrown_pending0 t Ht); [now left|right].
      apply elem_of_snoc. now left.
  - apply ordered_checkQueued. revert Hm.
    apply ordered_mono; unfold unfired, runningId; cbn;
      rewrite ?Hqueue, ?Hrun; auto.
Qed.

Lemma ordered_step m : consistent m -> ordered m -> ordered (step m).
Proof.
  intros Hconsistent Hm. unfold step.
  destruct (running m) as [[who [|a rest]]|] eqn:Hrun.
  - now apply ordered_finish.
  - pose proof (ordered_continue who (a :: rest) rest m Hrun Hm).
    pose proof (consistent_continue who (a :: rest) rest m Hrun Hconsistent).
    destruct a; cbn [perform].
    + now apply ordered_setTimeout.
    + now apply ordered_clearTimeout.
    + now apply ordered_waitForQueued.
    + now apply (ordered_throw who (Throw :: rest)).
  - now apply ordered_dequeue.
Qed.

Lemma ordered_run main n : ordered (run n (boot main)).
Proof.
  induction n as [|n IH]; [apply ordered_boot|].
  cbn. apply ordered_step; [apply consistent_run | exact IH].
Qed.

(** X12: in every run the tasks fire in the order in which they were
    scheduled, each at most once, and every task that is still queued was
    scheduled after all the tasks that have fired. *)
Theorem tasks_fire_in_scheduling_order main n :
  let m := run n (boot main) in
  StronglySorted lt (firedIds (history m))
  /\ StronglySorted lt (unfired m)
  /\ forall f u, f ∈ firedIds (history m) -> u ∈ unfired m -> f < u.
Proof.
  cbv zeta. destruct (ordered_run main n).
  split; [assumption|]. split; [assumption|].
  intros f u Hf%elem_of_firedIds. auto.
Qed.

Lemma filter_keeps_queue timeoutId q :
  timeoutId ∉ queuedTimeouts q ->
  List.filter (fun i => negb (isTimeout timeoutId i)) q = q.
Proof.
  induction q as [|[t callback|w] q IH]; cbn; intros Hout.
  - reflexivity.
  - apply not_elem_of_cons in Hout as [Hne Hout].
    destruct (Nat.eqb_spec t timeoutId) as [->|_]; [congruence|].
    cbn. now rewrite IH.
  - now rewrite IH.
Qed.

(** X13: at every point of every run, scheduling a task makes the pending
    set one larger, and cancelling that task before anything else happens
    gives back the pending set and the immediate queue from before the
    scheduling. *)
Theorem schedule_then_cancel_restores main n callback :
  let m := run n (boot main) in
  let scheduled := setTimeout callback m in
  let cancelled := clearTimeout (nextTimeoutId m) scheduled in
  size (timeoutCallbacks scheduled) = S (size (timeoutCallbacks m))
  /\ timeoutCallbacks cancelled = timeoutCallbacks m
  /\ immediateQueue cancelled = immediateQueue m.
Proof.
  cbv zeta. destruct (ordered_run main n), (consistent_run main n).
  set (m := run n (boot main)) in *.
  assert (Hfresh : nextTimeoutId m ∉ timeoutCallbacks m).
  { intros Hin%pending_allocated0. lia. }
  assert (Hunqueued : nextTimeoutId m ∉ queuedTimeouts (immediateQueue m)).
  { intros Hin%unfired_allocated0. lia. }
  split; [|split]; cbn.
  - rewrite size_union, size_singleton; [reflexivity|].
    intros t ->%elem_of_singleton. exact Hfresh.
  - apply set_eq. intros t.
    rewrite elem_of_difference, elem_of_union, elem_of_singleton.
    split; [intros [[->|?] ?]; [congruence|assumption]|].
    intros Hin. split; [now right|]. now intros ->.
  - rewrite List.filter_app. cbn. rewrite Nat.eqb_refl. cbn.
    rewrite app_nil_r. now apply filter_keeps_queue.
Qed.

(** Every step only adds to the history. *)
Lemma history_step m e : e ∈ history m -> e ∈ history (step m).
Proof.
  intros He. unfold step.
  destruct (running m) as [[who [|a rest]]|] eqn:Hrun.
  - now destruct who.
  - destruct a; cbn [perform].
    + exact He.
    + cbn. apply elem_of_snoc. now left.
    + unfold waitForQueued. rewrite history_checkQueued. cbn.
      apply elem_of_app. now left.
    + destruct who; cbn; [|exact He]. apply elem_of_snoc. now left.
  - unfold dequeue. destruct (immediateQueue m) as [|[t0 callback|w] q].
    + exact He.
    + cbn. apply elem_of_snoc. now left.
    + rewrite history_checkQueued. cbn. apply elem_of_app. now left.
Qed.

Lemma history_run k m e : e ∈ history m -> e ∈ history (run k m).
Proof.
  intros He. induction k as [|k IH]; [exact He|].
  cbn. now apply history_step.
Qed.

(** A task that is allocated, neither pending nor queued, stays so, and
    does not fire. *)
Lemma absent_step m t :
  t < nextTimeoutId m -> t ∉ timeoutCallbacks m -> t ∉ unfired m ->
  t < nextTimeoutId (step m)
  /\ (t ∉ timeoutCallbacks (step m))
  /\ (t ∉ unfired (step m))
  /\ (Fired t ∈ history (step m) -> Fired t ∈ history m).
Proof.
  intros Hnext Hpending Hqueued. unfold step.
  assert (Hsnoc : forall e, (forall x, e <> Fired x) ->
    Fired t ∈ history m ++ [e] -> Fired t ∈ history m).
  { intros e He [?| <-]%elem_of_snoc; [assumption|]. now destruct (He t). }
  assert (Hcheck : forall w m0,
    nextTimeoutId m0 = nextTimeoutId m ->
    timeoutCallbacks m0 = timeoutCallbacks m ->
    unfired m0 = unfired m -> history m0 = history m ->
    t < nextTimeoutId (checkQueued w m0)
    /\ (t ∉ timeoutCallbacks (checkQueued w m0))
    /\ (t ∉ unfired (checkQueued w m0))
    /\ (Fired t ∈ history (checkQueued w m0) -> Fired t ∈ history m)).
  { intros w m0 Hn Hp Hq Hh.
    rewrite nextTimeoutId_checkQueued, timeoutCallbacks_checkQueued,
      unfired_checkQueued, history_checkQueued, Hn, Hp, Hq, Hh.
    split; [assumption|]. split; [assumption|]. split; [assumption|].
    destruct (0 <? _); [now rewrite app_nil_r|].
    now apply Hsnoc. }
  destruct (running m) as [[who [|a rest]]|] eqn:Hrun.
  - destruct who; cbn;
      (split; [assumption|]; split; [|split; [assumption|auto]]);
      [|assumption].
    intros [? _]%elem_of_difference. contradiction.
  - destruct a; cbn [perform].
    + unfold unfired in *. cbn. rewrite queuedTimeouts_app. cbn.
      split; [lia|]. split; [|split; [|auto]].
      * intros [->%elem_of_singleton|?]%elem_of_union; [lia|contradiction].
      * intros [?| ->%list_elem_of_singleton]%elem_of_app;
          [contradiction|lia].
    + unfold unfired in *. cbn. rewrite queuedTimeouts_clear.
      split; [assumption|]. split; [|split].
      * intros [? _]%elem_of_difference. contradiction.
      * intros [_ ?]%list_elem_of_filter. contradiction.
      * now apply Hsnoc.
    + unfold waitForQueued. now apply Hcheck.
    + destruct who; cbn;
        (split; [assumption|]; split; [assumption|];
         split; [assumption|]); [|auto].
      now apply Hsnoc.
  - unfold dequeue.
    destruct (immediateQueue m) as [|[t0 callback|w] q] eqn:Hqueue.
    + split; [assumption|]. split; [assumption|]. split; [assumption|auto].
    + unfold unfired in *. rewrite Hqueue in *. cbn in *.
      apply not_elem_of_cons in Hqueued as [Hne Hqueued].
      split; [assumption|]. split; [assumption|]. split; [assumption|].
      intros [?| [= ->]]%elem_of_snoc; [assumption|congruence].
    + apply Hcheck; try reflexivity.
      unfold unfired. cbn. now rewrite Hqueue.
Qed.

(** X14: a task cancelled by [clearTimeout] never fires afterwards: from
    the step that executes the call on, the task is neither in the pending
    set nor in the queue, and its callback is not started. *)
Theorem cancelled_task_never_fires m who t rest k :
  running m = Some (mkFrame who (CallClearTimeout t :: rest)) ->
  t < nextTimeoutId m ->
  let later := run k (step m) in
  (t ∉ timeoutCallbacks later)
  /\ (t ∉ unfired later)
  /\ (Fired t ∈ history later -> Fired t ∈ history m).
Proof.
  intros Hrun Hnext. cbv zeta.
  assert (Hstart :
    t < nextTimeoutId (step m)
    /\ (t ∉ timeoutCallbacks (step m))
    /\ (t ∉ unfired (step m))
    /\ (Fired t ∈ history (step m) -> Fired t ∈ history m)).
  { unfold step. rewrite Hrun. cbn [perform].
    unfold unfired. cbn. rewrite queuedTimeouts_clear.
    split; [assumption|]. split; [|split].
    - intros [_ Hne]%elem_of_difference. apply Hne.
      now apply elem_of_singleton.
    - intros [Hne _]%list_elem_of_filter. now apply Hne.
    - intros [?|?]%elem_of_snoc; [assumption|discriminate]. }
  assert (Hall : forall j,
    t < nextTimeoutId (run j (step m))
    /\ (t ∉ timeoutCallbacks (run j (step m)))
    /\ (t ∉ unfired (run j (step m)))
    /\ (Fired t ∈ history (run j (step m)) -> Fired t ∈ history m)).
  { induction j as [|j IH]; [exact Hstart|].
    cbn. destruct IH as (Hn & Hp & Hq & Hf).
    destruct (absent_step _ t Hn Hp Hq) as (Hn' & Hp' & Hq' & Hf').
    split; [assumption|]. split; [assumption|]. split; [assumption|].
    intros Hin. auto. }
  destruct (Hall k) as (_ & Hp & Hq & Hf).
  split; [assumption|]. split; assumption.
Qed.

(** X15: once the callback of a task has thrown, no call of
    [waitForQueued] returns for as long as nobody clears the id of that
    task: the id stays in the pending set. *)
Theorem thrown_task_blocks_waitForQueued main n t k waiter :
  let m := run n (boot main) in
  Threw t ∈ history m ->
  Cleared t ∉ history (run k m) ->
  Drained waiter ∉ history m ->
  t ∈ timeoutCallbacks (run k m) /\ (Drained waiter ∉ history (run k m)).
Proof.
  cbv zeta. intros Hthrew.
  induction k as [|k IH]; intros Huncleared Hnew.
  - split; [|exact Hnew].
    destruct (ordered_run main n).
    destruct (thrown_pending0 t Hthrew); [assumption|contradiction].
  - assert (Hbefore : Cleared t ∉ history (run k (run n (boot main)))).
    { intros Hin. apply Huncleared. cbn. now apply history_step. }
    destruct (IH Hbefore Hnew) as [_ Hquiet].
    assert (Hreach : run (S k) (run n (boot main)) = run (S k + n) (boot main)).
    { unfold run. now rewrite Nat.iter_add. }
    assert (Hpending : t ∈ timeoutCallbacks (run (S k) (run n (boot main)))).
    { rewrite Hreach. destruct (ordered_run main (S k + n)).
      assert (Hlater : Threw t ∈ history (run (S k + n) (boot main))).
      { rewrite <- Hreach. now apply history_run. }
      destruct (thrown_pending0 t Hlater) as [?|Hcleared]; [assumption|].
      rewrite <- Hreach in Hcleared. contradiction. }
    split; [exact Hpending|].
    intros Hin. cbn in Hin, Hpending.
    pose proof (drained_step _ _ Hin Hquiet) as Hsize.
    apply size_empty_iff in Hsize. fold_leibniz.
    rewrite Hsize in Hpending. now apply elem_of_empty in Hpending.
Qed.

(** X16: [clearTimeout] for a task that is neither pending nor queued (it
    has run, it was cancelled before, or the id is unknown) changes neither
    the pending set nor the immediate queue; in particular cancelling twice
    is the same as cancelling once. *)
Theorem clearTimeout_of_absent_task m t :
  t ∉ timeoutCallbacks m ->
  t ∉ unfired m ->
  timeoutCallbacks (clearTimeout t m) = timeoutCallbacks m
  /\ immediateQueue (clearTimeout t m) = immediateQueue m
  /\ forall m',
       timeoutCallbacks (clearTimeout t (clearTimeout t m'))
       = timeoutCallbacks (clearTimeout t m')
       /\ immediateQueue (clearTimeout t (clearTimeout t m'))
          = immediateQueue (clearTimeout t m').
Proof.
  intros Hpending Hqueued.
  assert (Hnoop : forall m0,
    t ∉ timeoutCallbacks m0 -> t ∉ unfired m0 ->
    timeoutCallbacks (clearTimeout t m0) = timeoutCallbacks m0
    /\ immediateQueue (clearTimeout t m0) = immediateQueue m0).
  { intros m0 Hp Hq. cbn. split.
    - apply set_eq. intros x. rewrite elem_of_difference, elem_of_singleton.
      split; [tauto|]. intros Hx. split; [exact Hx|]. now intros ->.
    - now apply filter_keeps_queue. }
  split; [now apply Hnoop|]. split; [now apply Hnoop|].
  intros m'. apply Hnoop.
  - cbn. intros [_ Hne]%elem_of_difference. apply Hne.
    now apply elem_of_singleton.
  - unfold unfired. cbn. rewrite queuedTimeouts_clear.
    intros [Hne _]%list_elem_of_filter. now apply Hne.
Qed.

End TasksFacts.

(** ** Task queue: every run without a fault comes to rest *)
Module LivenessFacts.
Import Timers TimersFacts Tasks TasksFacts.

Lemma actionWeight_setTimeout callback :
  actionWeight (CallSetTimeout callback) = 3 + bodyWeight callback.
Proof.
  reflexivity.
Qed.

Lemma queueWeight_app q q' :
  queueWeight (q ++ q') = queueWeight q + queueWeight q'.
Proof.
  induction q as [|[t callback|w] q IH]; cbn [app queueWeight]; lia.
Qed.

Lemma queueWeight_clear timeoutId q :
  queueWeight (List.filter (fun i => negb (isTimeout timeoutId i)) q)
  <= queueWeight q.
Proof.
  induction q as [|[t callback|w] q IH]; cbn [List.filter queueWeight];
    [lia| |exact IH].
  cbn [isTimeout]. destruct (Nat.eqb t timeoutId); cbn [negb queueWeight]; lia.
Qed.

Lemma resolvers_app q q' : resolvers (q ++ q') = resolvers q + resolvers q'.
Proof.
  induction q as [|[t callback|w] q IH]; cbn [app resolvers]; lia.
Qed.

Lemma leadingResolvers_app q q' :
  queuedTimeouts q <> [] ->
  leadingResolvers (q ++ q') = leadingResolvers q.
Proof.
  induction q as [|[t callback|w] q IH]; intros Hsome.
  - now destruct Hsome.
  - reflexivity.
  - cbn [app leadingResolvers]. f_equal. now apply IH.
Qed.

Lemma forallb_clear timeoutId q :
  forallb wrapperThrowFree q = true ->
  forallb wrapperThrowFree
    (List.filter (fun i => negb (isTimeout timeoutId i)) q) = true.
Proof.
  induction q as [|i q IH]; [reflexivity|].
  cbn [forallb List.filter]. intros [Hi Hq]%andb_prop.
  destruct (negb (isTimeout timeoutId i)); [|now apply IH].
  cbn [forallb]. now rewrite Hi, IH.
Qed.

Lemma quiet_checkQueued waiter m : quiet m -> quiet (checkQueued waiter m).
Proof.
  intros [Hrun Hqueue Hhistory]. unfold checkQueued.
  destruct (0 <? _); split; cbn; try assumption.
  - rewrite forallb_app, Hqueue. reflexivity.
  - intros t [?|?]%elem_of_snoc; [now apply (Hhistory t)|discriminate].
Qed.

Lemma quiet_step m : quiet m -> quiet (step m).
Proof.
  intros Hm. unfold step.
  destruct (running m) as [[who [|a more]]|] eqn:Hrun.
  - destruct Hm as [_ Hqueue Hhistory].
    destruct who; split; cbn; try assumption; discriminate.
  - destruct Hm as [Hrunning Hqueue Hhistory].
    pose proof (Hrunning _ Hrun) as Hbody. cbn [rest forallb] in Hbody.
    apply andb_prop in Hbody as [Ha Hmore].
    destruct a; cbn [perform]; try discriminate.
    + split; cbn.
      * now intros frame [= <-].
      * rewrite forallb_app, Hqueue. cbn [forallb wrapperThrowFree andb].
        change (forallb throwFree callback && true = true).
        change (forallb throwFree callback = true) in Ha.
        now rewrite Ha.
      * assumption.
    + split; cbn.
      * now intros frame [= <-].
      * now apply forallb_clear.
      * intros t [?|?]%elem_of_snoc; [now apply (Hhistory t)|discriminate].
    + apply quiet_checkQueued. split; cbn; try assumption.
      now intros frame [= <-].
  - destruct Hm as [Hrunning Hqueue Hhistory]. unfold dequeue.
    destruct (immediateQueue m) as [|[t0 callback|w] q] eqn:Hq.
    + split; auto. now rewrite Hq.
    + cbn [forallb wrapperThrowFree] in Hqueue.
      apply andb_prop in Hqueue as [Hcallback Hqueue].
      split; cbn.
      * now intros frame [= <-].
      * assumption.
      * intros t [?|?]%elem_of_snoc; [now apply (Hhistory t)|discriminate].
    + cbn [forallb wrapperThrowFree] in Hqueue.
      apply quiet_checkQueued. split; cbn; try assumption. discriminate.
Qed.

Lemma quiet_boot main : forallb throwFree main = true -> quiet (boot main).
Proof.
  intros Hmain. split; cbn.
  - now intros frame [= <-].
  - reflexivity.
  - intros t Ht. now apply elem_of_nil in Ht.
Qed.

Lemma quiet_run main n :
  forallb throwFree main = true -> quiet (run n (boot main)).
Proof.
  intros Hmain. induction n as [|n IH]; [now apply quiet_boot|].
  cbn. now apply quiet_step.
Qed.

Lemma work_checkQueued waiter m : work (checkQueued waiter m) = work m.
Proof.
  unfold checkQueued, work. destruct (0 <? _); cbn; [|reflexivity].
  rewrite queueWeight_app. cbn. lia.
Qed.

(** Unless the machine is at rest, a step brings it closer to rest. *)
Lemma step_progress m :
  consistent m -> quiet m -> idle m = false -> closer (step m) m.
Proof.
  intros Hconsistent Hquiet Hbusy. unfold closer, step, idle in *.
  destruct (running m) as [[who [|a more]]|] eqn:Hrun.
  - left. unfold work. rewrite Hrun. destruct who; cbn; lia.
  - left. destruct a; cbn [perform].
    + unfold work. rewrite Hrun. cbn [setTimeout withRunning running
        immediateQueue rest bodyWeight].
      rewrite queueWeight_app, actionWeight_setTimeout. cbn. lia.
    + unfold work. rewrite Hrun. cbn [clearTimeout withRunning running
        immediateQueue rest bodyWeight actionWeight].
      pose proof (queueWeight_clear timeoutId (immediateQueue m)). lia.
    + unfold waitForQueued. rewrite work_checkQueued.
      unfold work. rewrite Hrun. cbn. lia.
    + unfold work. rewrite Hrun. destruct who; cbn; lia.
  - unfold dequeue.
    destruct (immediateQueue m) as [|[t0 callback|w] q] eqn:Hqueue;
      [discriminate| |].
    + left. unfold work. rewrite Hrun, Hqueue. cbn. lia.
    + right. unfold checkQueued, work. cbn [timeoutCallbacks running
        immediateQueue]. rewrite Hrun, Hqueue.
      destruct (Nat.ltb_spec 0 (size (timeoutCallbacks m))) as [Hsome|Hnone];
        cbn [running immediateQueue queueWeight resolvers leadingResolvers].
      * rewrite queueWeight_app, resolvers_app. cbn. split; [lia|].
        right. split; [lia|].
        rewrite leadingResolvers_app; [lia|].
        apply size_pos_elem_of in Hsome as [t Ht].
        destruct Hconsistent, Hquiet.
        destruct (pending_accounted0 t Ht) as [Hin|[Hid|Hthrew]].
        -- unfold unfired in Hin. rewrite Hqueue in Hin.
           change (t ∈ queuedTimeouts q) in Hin.
           intros Hnil. rewrite Hnil in Hin. now apply elem_of_nil in Hin.
        -- unfold runningId in Hid. rewrite Hrun in Hid. discriminate.
        -- now destruct (nothing_thrown0 t).
      * split; [lia|]. left. lia.
Qed.

Lemma answered_checkQueued waiter m :
  (forall w, w < nextWaiter m ->
     Drained w ∈ history m \/ Resolver w ∈ immediateQueue m \/ w = waiter) ->
  answered (checkQueued waiter m).
Proof.
  intros Hm w Hw. unfold checkQueued in *.
  destruct (0 <? _); cbn in *.
  - destruct (Hm w Hw) as [?|[?| ->]]; [now left| |];
      right; apply elem_of_app; [now left|right].
    now apply list_elem_of_singleton.
  - destruct (Hm w Hw) as [?|[?| ->]]; [left|now right|left];
      apply elem_of_snoc; [now left|now right].
Qed.

Lemma answered_step m : answered m -> answered (step m).
Proof.
  intros Hm. unfold step.
  destruct (running m) as [[who [|a more]]|] eqn:Hrun.
  - destruct who; exact Hm.
  - destruct a; cbn [perform].
    + intros w Hw. destruct (Hm w Hw); [now left|right].
      cbn. apply elem_of_app. now left.
    + intros w Hw. cbn. destruct (Hm w Hw) as [?|Hin].
      * left. apply elem_of_snoc. now left.
      * right. apply list_elem_of_In, filter_In.
        split; [now apply list_elem_of_In | reflexivity].
    + unfold waitForQueued. apply answered_checkQueued. cbn.
      intros w Hw. destruct (decide (w = nextWaiter m)) as [->|Hne]; [auto|].
      destruct (Hm w ltac:(lia)); auto.
    + destruct who; intros w Hw; cbn; destruct (Hm w Hw); auto.
      left. apply elem_of_snoc. now left.
  - unfold dequeue.
    destruct (immediateQueue m) as [|[t0 callback|w0] q] eqn:Hqueue.
    + exact Hm.
    + intros w Hw. cbn. destruct (Hm w Hw) as [?|Hin].
      * left. apply elem_of_snoc. now left.
      * right. rewrite Hqueue in Hin.
        apply elem_of_cons in Hin as [?|?]; [discriminate|assumption].
    + apply answered_checkQueued. cbn. intros w Hw.
      destruct (Hm w Hw) as [?|Hin]; [auto|].
      rewrite Hqueue in Hin.
      apply elem_of_cons in Hin as [[= ->]|?]; auto.
Qed.

Lemma answered_run main n : answered (run n (boot main)).
Proof.
  induction n as [|n IH]; [intros w Hw; cbn in Hw; lia|].
  cbn. now apply answered_step.
Qed.

(** A consistent machine in which nothing throws comes to rest. *)
Lemma eventually_idle m :
  consistent m -> quiet m -> exists n, idle (run n m) = true.
Proof.
  remember (work m) as todo eqn:Hwork.
  remember (resolvers (immediateQueue m)) as waiting eqn:Hwaiting.
  remember (leadingResolvers (immediateQueue m)) as ahead eqn:Hahead.
  revert waiting ahead m Hwork Hwaiting Hahead.
  induction todo as [todo IHwork] using lt_wf_ind.
  induction waiting as [waiting IHwaiting] using lt_wf_ind.
  induction ahead as [ahead IHahead] using lt_wf_ind.
  intros m Hwork Hwaiting Hahead Hconsistent Hquiet.
  destruct (idle m) eqn:Hidle; [now exists 0|].
  assert (Hnext : exists n, idle (run n (step m)) = true).
  { pose proof (consistent_step m Hconsistent) as Hconsistent'.
    pose proof (quiet_step m Hquiet) as Hquiet'.
    destruct (step_progress m Hconsistent Hquiet Hidle)
      as [Hless|[Hsame [Hless|[Hsame' Hless]]]].
    - eapply IHwork; [|reflexivity..|assumption|assumption]. lia.
    - eapply IHwaiting; [|lia|reflexivity..|assumption|assumption]. lia.
    - eapply IHahead; [|lia|lia|reflexivity|assumption|assumption]. lia. }
  destruct Hnext as [n Hn]. exists (S n).
  unfold run in *. now rewrite Nat.iter_succ_r.
Qed.

(** For the finite scripts of [Action], whose tasks cannot schedule
    themselves again without end: a run in which no callback throws comes to
    rest.  After finitely many steps nothing is running or queued, the
    pending set is empty, every call of [waitForQueued] has returned, and
    every scheduled task has fired or has been cancelled.  A task that
    keeps rescheduling itself keeps the pending set non-empty for ever. *)
Theorem finite_scripts_come_to_rest main :
  forallb throwFree main = true ->
  exists n,
    let m := run n (boot main) in
    idle m = true
    /\ timeoutCallbacks m = ∅
    /\ (forall w, w < nextWaiter m -> Drained w ∈ history m)
    /\ (forall t, t < nextTimeoutId m ->
          Fired t ∈ history m \/ Cleared t ∈ history m).
Proof.
  intros Hmain.
  destruct (eventually_idle (boot main) (consistent_boot main)
              (quiet_boot main Hmain)) as [n Hidle].
  exists n. cbv zeta.
  pose proof (consistent_run main n) as [].
  pose proof (quiet_run main n Hmain) as [].
  pose proof (answered_run main n) as Hanswered.
  set (m := run n (boot main)) in *.
  unfold idle in Hidle.
  destruct (running m) as [frame|] eqn:Hrun; [discriminate|].
  destruct (immediateQueue m) as [|i q] eqn:Hqueue; [|discriminate].
  assert (Hunfired : unfired m = []) by (unfold unfired; now rewrite Hqueue).
  assert (Hnobody : runningId m = None)
    by (unfold runningId; now rewrite Hrun).
  split; [unfold idle; now rewrite Hrun, Hqueue|]. split.
  - apply set_eq. intros t. split; [|intros Hin; now apply elem_of_empty in Hin].
    intros Ht. destruct (pending_accounted0 t Ht) as [Hin|[Hid|Hthrew]].
    + rewrite Hunfired in Hin. now apply elem_of_nil in Hin.
    + rewrite Hnobody in Hid. discriminate.
    + now destruct (nothing_thrown0 t).
  - split.
    + intros w Hw. destruct (Hanswered w Hw) as [?|Hin]; [assumption|].
      rewrite Hqueue in Hin. now apply elem_of_nil in Hin.
    + intros t Ht. destruct (allocated_accounted0 t Ht) as [Hin|?];
        [|assumption].
      rewrite Hunfired in Hin. now apply elem_of_nil in Hin.
Qed.

End LivenessFacts.

(** ** Host watcher adapter: when [getWatcher] throws *)
Module AdapterCoverage.
Import Adapter AdapterFacts.

(** X18: [getWatcher] throws exactly when the handle is [undefined] or
    [null], or its [watchFileSystem] is; on every other handle, whatever the
    shape of [watchFileSystem], it returns. *)
Theorem getWatcher_throws_exactly_without_watchFileSystem compiler :
  getWatcher compiler = TypeError
  <-> nullish compiler = true
      \/ exists watchFileSystem,
           getProperty compiler "watchFileSystem" = Returns watchFileSystem
           /\ nullish watchFileSystem = true.
Proof.
  unfold getWatcher.
  destruct (nullish compiler) eqn:Hcompiler.
  - split; [now left|]. intros _. now destruct compiler.
  - destruct (getProperty_defined compiler "watchFileSystem" Hcompiler)
      as [watchFileSystem Hhandle].
    rewrite Hhandle. cbn [bind].
    destruct (nullish watchFileSystem) eqn:Hobject.
    + split; [right; eauto|]. intros _. now destruct watchFileSystem.
    + destruct (getProperty_defined watchFileSystem "watcher" Hobject)
        as [watcher ->].
      destruct (getProperty_defined watchFileSystem "wfs" Hobject)
        as [wfs ->].
      cbn [bind]. split.
      * destruct (truthy watcher); [discriminate|].
        destruct (truthy wfs) eqn:Hwfs; [|discriminate].
        destruct (getProperty_defined wfs "watcher"
                    (truthy_not_nullish wfs Hwfs)) as [inner ->].
        discriminate.
      * intros [?|(other & [= <-] & ?)]; congruence.
Qed.

End AdapterCoverage.

(** ** The further properties at work on concrete inputs *)
Module CoverageScenarios.
Import Scenario Timers TimersFacts Tasks TasksFacts LivenessFacts.

#[local] Existing Instance memoryStore.

Ltac absent_from_history H :=
  repeat (apply elem_of_cons in H as [H|H]; [discriminate|]);
  now apply elem_of_nil in H.

Lemma noEmptyEntries_fresh : noEmptyEntries fresh.
Proof. intros r path. destruct r; cbn; rewrite lookup_empty; discriminate. Qed.

(** A fresh system, one registration on [/f], and the handle closed. *)
Lemma registry_keeps_no_empty_entries_witness :
  noEmptyEntries fresh
  /\ noEmptyEntries (createWatcher FileWatchers "/f" 1 fresh).1
  /\ noEmptyEntries
       (close (createWatcher FileWatchers "/f" 1 fresh).2
          (createWatcher FileWatchers "/f" 1 fresh).1).
Proof.
  pose proof noEmptyEntries_fresh as Hfresh.
  destruct (registry_keeps_no_empty_entries fresh Hfresh) as [Hwatch _].
  destruct (registry_keeps_no_empty_entries _ (Hwatch FileWatchers "/f" 1))
    as [_ Hclose].
  split; [exact Hfresh|]. split; [apply Hwatch | apply Hclose].
Defined.

(** Callback 1 registered on [/f] of a fresh system, then closed. *)
Lemma register_then_close_restores_witness :
  (1 ∉ registered FileWatchers "/f" fresh)
  /\ close (createWatcher FileWatchers "/f" 1 fresh).2
       (createWatcher FileWatchers "/f" 1 fresh).1 = fresh.
Proof.
  assert (Hout : 1 ∉ registered FileWatchers "/f" fresh).
  { intros Hin. now apply elem_of_nil in Hin. }
  split; [exact Hout|].
  apply (register_then_close_restores FileWatchers "/f" 1 fresh Hout).
  apply noEmptyEntries_fresh.
Defined.

(** A file watcher on [/f] leaves the directory registry of [/f] alone. *)
Lemma registry_updates_are_local_witness :
  DirectoryWatchers <> FileWatchers
  /\ registered DirectoryWatchers "/f"
       (createWatcher FileWatchers "/f" 1 treeWatched).1
     = registered DirectoryWatchers "/f" treeWatched.
Proof.
  assert (Hne : DirectoryWatchers <> FileWatchers) by discriminate.
  split; [exact Hne|].
  apply (registry_updates_are_local FileWatchers "/f" 1 treeWatched
           DirectoryWatchers "/f" (or_introl Hne)).
Defined.

(** The directory notification for [/a/b/c.txt] on the watched tree. *)
Lemma directory_notification_calls_witness :
  trace (invokeDirectoryWatchers inert "/a/b/c.txt" (mkWorld treeWatched []))
  = [DirectoryWatcherCall 3 "/a/b/c.txt";
     DirectoryWatcherCall 2 "/a/b/c.txt";
     DirectoryWatcherCall 1 "/a/b/c.txt"].
Proof.
  destruct (directory_notification_calls inert "/a/b/c.txt"
              (mkWorld treeWatched []) (fun _ _ => eq_refl)) as [Hcalls _].
  etransitivity; [exact Hcalls | reflexivity].
Defined.

(** Delete, then write, on the watched [/f]. *)
Lemma deleted_mark_lifecycle_witness :
  markedDeleted "/f"
    (state (invokeFileDeleted inert "/f"
              (mkWorld (watchFile "/f" 0 fresh).1 []))) = true
  /\ trace (writeFile inert "/f" "x"
              (deleteFile inert "/f" (mkWorld (watchFile "/f" 0 fresh).1 [])))
     = [FileWatcherCall 0 "/f" Deleted; FileWatcherCall 0 "/f" Created].
Proof.
  destruct (deleted_mark_lifecycle inert "/f"
              (mkWorld (watchFile "/f" 0 fresh).1 []) (fun _ _ => eq_refl))
    as (Hdeleted & _ & Hcreated & _).
  split; [exact Hdeleted|].
  etransitivity; [exact (Hcreated "x") | reflexivity].
Defined.

(** A write to [/a/b/c.txt] leaves the recursive registry as it was. *)
Lemma notifications_leave_registry_alone_witness :
  watchersOf RecursiveDirectoryWatchers
    (state (writeFile inert "/a/b/c.txt" "x" (mkWorld treeWatched [])))
  = watchersOf RecursiveDirectoryWatchers treeWatched.
Proof.
  destruct (notifications_leave_registry_alone inert
              RecursiveDirectoryWatchers "/a/b/c.txt"
              (mkWorld treeWatched []) (fun _ _ => eq_refl)) as [Hwrite _].
  exact (Hwrite "x").
Defined.

(** Deleting [/g] leaves the mark of the deleted [/f] as it was. *)
Lemma notifications_leave_other_marks_alone_witness :
  "/f" <> "/g"
  /\ markedDeleted "/f" (state (deleteFile inert "/g" deletedFile))
     = markedDeleted "/f" (state deletedFile).
Proof.
  assert (Hne : "/f" <> "/g") by discriminate.
  split; [exact Hne|].
  destruct (notifications_leave_other_marks_alone inert "/f" "/g"
              deletedFile Hne (fun _ _ => eq_refl)) as (_ & Hdelete & _).
  exact Hdelete.
Defined.

(** Cancelling an unknown id in the chained scenario changes nothing. *)
Lemma clearTimeout_of_absent_task_witness :
  (7 ∉ timeoutCallbacks (run 5 (boot chained)))
  /\ (7 ∉ unfired (run 5 (boot chained)))
  /\ immediateQueue (clearTimeout 7 (run 5 (boot chained)))
     = immediateQueue (run 5 (boot chained)).
Proof.
  assert (Hqueued : 7 ∉ unfired (run 5 (boot chained))).
  { replace (unfired (run 5 (boot chained))) with [1] by reflexivity.
    intros Hin. absent_from_history Hin. }
  assert (Hpending : 7 ∉ timeoutCallbacks (run 5 (boot chained))).
  { intros Hin%(pending_allocated _ (ordered_run chained 5)).
    vm_compute in Hin. lia. }
  destruct (clearTimeout_of_absent_task (run 5 (boot chained)) 7
              Hpending Hqueued) as (_ & Hqueue & _).
  split; [exact Hpending|]. split; [exact Hqueued | exact Hqueue].
Defined.

(** The task scheduled and cancelled by the main script never fires. *)
Lemma cancelled_task_never_fires_witness :
  running (run 1 (boot cancelling))
  = Some (mkFrame None [CallClearTimeout 0])
  /\ 0 < nextTimeoutId (run 1 (boot cancelling))
  /\ (Fired 0 ∉ history (run 10 (step (run 1 (boot cancelling))))).
Proof.
  assert (Hrun : running (run 1 (boot cancelling))
                 = Some (mkFrame None [CallClearTimeout 0])) by reflexivity.
  assert (Hnext : 0 < nextTimeoutId (run 1 (boot cancelling)))
    by (cbn; lia).
  destruct (cancelled_task_never_fires (run 1 (boot cancelling)) None 0 []
              10 Hrun Hnext) as (_ & _ & Hfired).
  split; [exact Hrun|]. split; [exact Hnext|].
  intros Hin. apply Hfired in Hin.
  replace (history (run 1 (boot cancelling))) with (@nil Event) in Hin
    by reflexivity.
  now apply elem_of_nil in Hin.
Defined.

(** After the only task has thrown, the waiting call of the main script
    has not returned ten steps later. *)
Lemma thrown_task_blocks_waitForQueued_witness :
  Threw 0 ∈ history (run 5 (boot throwingThenWaiting))
  /\ (Drained 0 ∉ history (run 10 (run 5 (boot throwingThenWaiting)))).
Proof.
  assert (Hthrew : Threw 0 ∈ history (run 5 (boot throwingThenWaiting))).
  { replace (history (run 5 (boot throwingThenWaiting)))
      with [Fired 0; Threw 0] by reflexivity.
    repeat constructor. }
  assert (Huncleared :
    Cleared 0 ∉ history (run 10 (run 5 (boot throwingThenWaiting)))).
  { replace (history (run 10 (run 5 (boot throwingThenWaiting))))
      with [Fired 0; Threw 0] by (vm_compute; reflexivity).
    intros Hin. absent_from_history Hin. }
  assert (Hnew : Drained 0 ∉ history (run 5 (boot throwingThenWaiting))).
  { replace (history (run 5 (boot throwingThenWaiting)))
      with [Fired 0; Threw 0] by reflexivity.
    intros Hin. absent_from_history Hin. }
  destruct (thrown_task_blocks_waitForQueued throwingThenWaiting 5 0 10 0
              Hthrew Huncleared Hnew) as [_ Hblocked].
  split; [exact Hthrew | exact Hblocked].
Defined.

(** The chained scenario comes to rest. *)
Lemma finite_scripts_come_to_rest_example :
  forallb throwFree chained = true
  /\ exists n, idle (run n (boot chained)) = true
               /\ timeoutCallbacks (run n (boot chained)) = ∅.
Proof.
  assert (Hquiet : forallb throwFree chained = true) by reflexivity.
  destruct (finite_scripts_come_to_rest chained Hquiet)
    as (n & Hidle & Hempty & _).
  split; [exact Hquiet|]. exists n. split; [exact Hidle | exact Hempty].
Defined.

End CoverageScenarios.

(** ** Which directory watchers run before the file watchers *)
Section NotificationOrder.

Context `{PFS : PassiveFileSystem}.
Variable effect : Invocation -> State -> State.





End NotificationOrder.

(** ** The watched file in the watched tree *)
Module OrderScenarioFacts.
Import Scenario OrderScenario.

#[local] Existing Instance memoryStore.



End OrderScenarioFacts.
